(** * SipHash-2-4 (c-siphash): a shallow embedding of [c-siphash.c]

    The C functions of [src/c-siphash.c] are rendered as Rocq functions over
    [Z], every [uint64_t] operation carrying its reduction modulo [2^64].
    A [const uint8_t *] is an offset into a list of bytes; a read outside
    the list yields [None], so that a result [Some _] certifies that every
    access of the call was inside the buffer. *)

From Stdlib Require Import ZArith List Lia Bool.
From Stdlib Require Import Strings.Byte.
From Equations Require Import Equations.
Import ListNotations.

Local Open Scope Z_scope.

(** ** Machine integers *)

(** Truncation of a mathematical integer to [uint64_t]. *)
Definition wrap64 (z : Z) : Z := z mod 2 ^ 64.

(** [x + y], [x << n] and [x >> n] on [uint64_t]. *)
Definition add64 (x y : Z) : Z := wrap64 (x + y).
Definition shl64 (x n : Z) : Z := wrap64 (Z.shiftl x n).
Definition shr64 (x n : Z) : Z := Z.shiftr x n.

(** The values a [uint64_t] can hold. *)
Definition is_u64 (x : Z) : Prop := 0 <= x < 2 ^ 64.

(** [(uint64_t) b] for a [uint8_t] [b]. *)
Definition u8 (b : byte) : Z := Z.of_N (Byte.to_N b).

(** ** Memory: a buffer and the partial read [p\[i\]] *)

Definition buffer := list byte.

(** [load mem p] is [*p] for the pointer at offset [p] of [mem], converted to
    [uint64_t]; [None] when [p] is not inside [mem]. A null or absent buffer
    is one with no readable byte, [[]]. *)
Definition load (mem : buffer) (p : Z) : option Z :=
  if p <? 0 then None else option_map u8 (nth_error mem (Z.to_nat p)).

Definition bind {A B : Type} (m : option A) (k : A -> option B) : option B :=
  match m with
  | Some a => k a
  | None => None
  end.

Notation "x <- m ;; k" := (bind m (fun x => k))
  (at level 61, m at next level, right associativity).

(** ** The engine state *)

(** Modelled from the spec: the structure [CSipHash] is declared in
    [c-siphash.h], which is not among the sources. The spec gives four 64-bit
    lanes, a 64-bit accumulator of pending bytes and a 64-bit byte count; the
    field names are the ones [c-siphash.c] uses. *)
Record CSipHash : Type := mkCSipHash {
  v0 : Z;
  v1 : Z;
  v2 : Z;
  v3 : Z;
  padding : Z;
  n_bytes : Z
}.

Definition set_v0 (s : CSipHash) (x : Z) : CSipHash :=
  mkCSipHash x (v1 s) (v2 s) (v3 s) (padding s) (n_bytes s).
Definition set_v1 (s : CSipHash) (x : Z) : CSipHash :=
  mkCSipHash (v0 s) x (v2 s) (v3 s) (padding s) (n_bytes s).
Definition set_v2 (s : CSipHash) (x : Z) : CSipHash :=
  mkCSipHash (v0 s) (v1 s) x (v3 s) (padding s) (n_bytes s).
Definition set_v3 (s : CSipHash) (x : Z) : CSipHash :=
  mkCSipHash (v0 s) (v1 s) (v2 s) x (padding s) (n_bytes s).
Definition set_padding (s : CSipHash) (x : Z) : CSipHash :=
  mkCSipHash (v0 s) (v1 s) (v2 s) (v3 s) x (n_bytes s).
Definition set_n_bytes (s : CSipHash) (x : Z) : CSipHash :=
  mkCSipHash (v0 s) (v1 s) (v2 s) (v3 s) (padding s) x.

(** Every field holds a [uint64_t] value. *)
Definition state_ok (s : CSipHash) : Prop :=
  is_u64 (v0 s) /\ is_u64 (v1 s) /\ is_u64 (v2 s) /\ is_u64 (v3 s) /\
  is_u64 (padding s) /\ is_u64 (n_bytes s).

(** ** The functions of c-siphash.c *)

(** [c_siphash_read_le64], lines 19-28. *)
Definition c_siphash_read_le64 (mem : buffer) (bytes : Z) : option Z :=
  b0 <- load mem (bytes + 0) ;;
  b1 <- load mem (bytes + 1) ;;
  b2 <- load mem (bytes + 2) ;;
  b3 <- load mem (bytes + 3) ;;
  b4 <- load mem (bytes + 4) ;;
  b5 <- load mem (bytes + 5) ;;
  b6 <- load mem (bytes + 6) ;;
  b7 <- load mem (bytes + 7) ;;
  Some (Z.lor (Z.lor (Z.lor (Z.lor (Z.lor (Z.lor (Z.lor
          b0
          (shl64 b1 8))
          (shl64 b2 16))
          (shl64 b3 24))
          (shl64 b4 32))
          (shl64 b5 40))
          (shl64 b6 48))
          (shl64 b7 56)).

(** [c_siphash_rotate_left], lines 30-32. *)
Definition c_siphash_rotate_left (x b : Z) : Z :=
  Z.lor (shl64 x b) (shr64 x (64 - b)).

(** [c_siphash_sipround], lines 34-49: one assignment per line. *)
Definition c_siphash_sipround (state : CSipHash) : CSipHash :=
  let state := set_v0 state (add64 (v0 state) (v1 state)) in
  let state := set_v1 state (c_siphash_rotate_left (v1 state) 13) in
  let state := set_v1 state (Z.lxor (v1 state) (v0 state)) in
  let state := set_v0 state (c_siphash_rotate_left (v0 state) 32) in
  let state := set_v2 state (add64 (v2 state) (v3 state)) in
  let state := set_v3 state (c_siphash_rotate_left (v3 state) 16) in
  let state := set_v3 state (Z.lxor (v3 state) (v2 state)) in
  let state := set_v0 state (add64 (v0 state) (v3 state)) in
  let state := set_v3 state (c_siphash_rotate_left (v3 state) 21) in
  let state := set_v3 state (Z.lxor (v3 state) (v0 state)) in
  let state := set_v2 state (add64 (v2 state) (v1 state)) in
  let state := set_v1 state (c_siphash_rotate_left (v1 state) 17) in
  let state := set_v1 state (Z.lxor (v1 state) (v2 state)) in
  let state := set_v2 state (c_siphash_rotate_left (v2 state) 32) in
  state.

(** [c_siphash_init], lines 70-89. The seed is read through the same partial
    [load]; [seed + 8] is offset 8 of the seed buffer. *)
Definition c_siphash_init (seed : buffer) : option CSipHash :=
  k0 <- c_siphash_read_le64 seed 0 ;;
  k1 <- c_siphash_read_le64 seed (0 + 8) ;;
  Some (mkCSipHash
          (Z.lxor 0x736f6d6570736575 k0)
          (Z.lxor 0x646f72616e646f6d k1)
          (Z.lxor 0x6c7967656e657261 k0)
          (Z.lxor 0x7465646279746573 k1)
          0
          0).

(** The number of steps a counter [i] is away from its bound: the measure
    under which the two loops of [c_siphash_append] terminate. *)
Definition steps_to (bound i : Z) : nat := Z.to_nat (bound - i).
Arguments steps_to : simpl never.

(** The loop of lines 119-120,
    [for ( ; bytes < end && left < 8; ++bytes, ++left)], returning the
    state and the two loop variables as they stand when the loop exits
    ([end_] and [left_] are the C variables [end] and [left]). *)
Equations? append_drain (state : CSipHash) (mem : buffer) (bytes end_ left_ : Z)
  : option (CSipHash * Z * Z) by wf (steps_to 8 left_) lt :=
  append_drain state mem bytes end_ left_ with Z_lt_dec bytes end_ => {
    | right _ := Some (state, bytes, left_)
    | left _ with Z_lt_dec left_ 8 => {
      | right _ := Some (state, bytes, left_)
      | left _ :=
          b <- load mem bytes ;;
          append_drain
            (set_padding state (Z.lor (padding state) (shl64 b (left_ * 8))))
            mem (bytes + 1) end_ (left_ + 1) } }.
Proof. unfold steps_to. lia. Qed.

(** The loop of lines 140-147, [for ( ; bytes < end; bytes += 8)]. The round
    function is kept folded while the recursion is set up. *)
#[local] Opaque c_siphash_sipround.
Equations? append_words (state : CSipHash) (mem : buffer) (bytes end_ : Z)
  : option (CSipHash * Z) by wf (steps_to end_ bytes) lt :=
  append_words state mem bytes end_ with Z_lt_dec bytes end_ => {
    | right _ := Some (state, bytes)
    | left _ :=
        m <- c_siphash_read_le64 mem bytes ;;
        let state := set_v3 state (Z.lxor (v3 state) m) in
        let state := c_siphash_sipround state in
        let state := c_siphash_sipround state in
        let state := set_v0 state (Z.lxor (v0 state) m) in
        append_words state mem (bytes + 8) end_ }.
Proof. unfold steps_to. lia. Qed.

#[local] Transparent c_siphash_sipround.

(** One statement of the switch of lines 155-179:
    [state->padding |= ((uint64_t) bytes\[i\]) << sh]. *)
Definition append_or_byte (state : CSipHash) (mem : buffer) (bytes i sh : Z)
  : option CSipHash :=
  b <- load mem (bytes + i) ;;
  Some (set_padding state (Z.lor (padding state) (shl64 b sh))).

(** The case labels of the switch, each falling through to the next. *)
Definition append_case1 (state : CSipHash) (mem : buffer) (bytes : Z) :=
  append_or_byte state mem bytes 0 0.
Definition append_case2 (state : CSipHash) (mem : buffer) (bytes : Z) :=
  state <- append_or_byte state mem bytes 1 8 ;; append_case1 state mem bytes.
Definition append_case3 (state : CSipHash) (mem : buffer) (bytes : Z) :=
  state <- append_or_byte state mem bytes 2 16 ;; append_case2 state mem bytes.
Definition append_case4 (state : CSipHash) (mem : buffer) (bytes : Z) :=
  state <- append_or_byte state mem bytes 3 24 ;; append_case3 state mem bytes.
Definition append_case5 (state : CSipHash) (mem : buffer) (bytes : Z) :=
  state <- append_or_byte state mem bytes 4 32 ;; append_case4 state mem bytes.
Definition append_case6 (state : CSipHash) (mem : buffer) (bytes : Z) :=
  state <- append_or_byte state mem bytes 5 40 ;; append_case5 state mem bytes.
Definition append_case7 (state : CSipHash) (mem : buffer) (bytes : Z) :=
  state <- append_or_byte state mem bytes 6 48 ;; append_case6 state mem bytes.

(** [switch (left)], lines 155-179; a value with no label runs no
    statement. *)
Definition append_switch (state : CSipHash) (mem : buffer) (bytes left_ : Z)
  : option CSipHash :=
  match left_ with
  | 7 => append_case7 state mem bytes
  | 6 => append_case6 state mem bytes
  | 5 => append_case5 state mem bytes
  | 4 => append_case4 state mem bytes
  | 3 => append_case3 state mem bytes
  | 2 => append_case2 state mem bytes
  | 1 => append_case1 state mem bytes
  | 0 => Some state
  | _ => Some state
  end.

(** Lines 133-179 of [c_siphash_append]: what runs once the engine is at a
    64-bit boundary. *)
Definition append_aligned (state : CSipHash) (mem : buffer) (bytes end_ : Z)
  : option CSipHash :=
  let end_ := end_ - (n_bytes state) mod 8 in
  r <- append_words state mem bytes end_ ;;
  let '(state, bytes) := r in
  let left_ := Z.land (n_bytes state) 7 in
  append_switch state mem bytes left_.

(** [c_siphash_append], lines 107-180. [bytes] starts at offset 0 of [mem];
    the parameter [n] is the C parameter [n_bytes]. The [return] of line 123
    ends the call with the state as it stands. *)
Definition c_siphash_append (state : CSipHash) (mem : buffer) (n : Z)
  : option CSipHash :=
  let bytes := 0 in
  let end_ := bytes + n in
  let left_ := Z.land (n_bytes state) 7 in
  let state := set_n_bytes state (add64 (n_bytes state) n) in
  if 0 <? left_ then
    r <- append_drain state mem bytes end_ left_ ;;
    let '(state, bytes, left_) := r in
    if (bytes =? end_) && (left_ <? 8) then Some state
    else
      let state := set_v3 state (Z.lxor (v3 state) (padding state)) in
      let state := c_siphash_sipround state in
      let state := c_siphash_sipround state in
      let state := set_v0 state (Z.lxor (v0 state) (padding state)) in
      let state := set_padding state 0 in
      append_aligned state mem bytes end_
  else
    append_aligned state mem bytes end_.

(** [c_siphash_finalize], lines 197-215: the state it leaves and the value it
    returns. *)
Definition c_siphash_finalize (state : CSipHash) : CSipHash * Z :=
  let b := Z.lor (padding state) (shl64 (n_bytes state) 56) in
  let state := set_v3 state (Z.lxor (v3 state) b) in
  let state := c_siphash_sipround state in
  let state := c_siphash_sipround state in
  let state := set_v0 state (Z.lxor (v0 state) b) in
  let state := set_v2 state (Z.lxor (v2 state) 0xff) in
  let state := c_siphash_sipround state in
  let state := c_siphash_sipround state in
  let state := c_siphash_sipround state in
  let state := c_siphash_sipround state in
  (state, Z.lxor (Z.lxor (Z.lxor (v0 state) (v1 state)) (v2 state)) (v3 state)).

(** [c_siphash_hash], lines 238-245. *)
Definition c_siphash_hash (seed : buffer) (mem : buffer) (n : Z) : option Z :=
  state <- c_siphash_init seed ;;
  state <- c_siphash_append state mem n ;;
  Some (snd (c_siphash_finalize state)).

(** The seed of [test_api] in [test-api.c], the ASCII bytes of
    "0123456789abcdef". *)
Definition test_seed : buffer :=
  [x30; x31; x32; x33; x34; x35; x36; x37;
   x38; x39; x61; x62; x63; x64; x65; x66]%byte.

(** [test_api], lines 15-24 of [test-api.c]: the value of the asserted
    comparison ([C_SIPHASH_NULL] is overwritten by [c_siphash_init]; the
    [NULL] buffer has no readable byte). *)
Definition test_api : option bool :=
  state <- c_siphash_init test_seed ;;
  state <- c_siphash_append state [] 0 ;;
  let hash := snd (c_siphash_finalize state) in
  Some (hash =? 12552310112479190712).

(** ** Reference notions the properties are stated with *)

(** The number a list of bytes denotes when read least significant byte
    first. *)
Fixpoint le_value (l : list byte) : Z :=
  match l with
  | [] => 0
  | b :: t => u8 b + 256 * le_value t
  end.

(** Rotation of a 64-bit word, bit by bit: bit [i] of the result is bit
    [i - b] (modulo 64) of the operand. *)
Definition rotl64_bit (x b i : Z) : bool := Z.testbit x ((i - b) mod 64).

(** Rotation of a 64-bit word as arithmetic: the low [64 - b] bits move up
    by [b] places and the high [b] bits come back in at the bottom. *)
Definition rotl64 (x b : Z) : Z := (x * 2 ^ b) mod 2 ^ 64 + x / 2 ^ (64 - b).

(** The round as the spec writes it, on the four lanes, with wrap-around
    addition and the rotation above. *)
Definition round_lanes (v0 v1 v2 v3 : Z) : Z * Z * Z * Z :=
  let v0 := (v0 + v1) mod 2 ^ 64 in
  let v1 := rotl64 v1 13 in
  let v1 := Z.lxor v1 v0 in
  let v0 := rotl64 v0 32 in
  let v2 := (v2 + v3) mod 2 ^ 64 in
  let v3 := rotl64 v3 16 in
  let v3 := Z.lxor v3 v2 in
  let v0 := (v0 + v3) mod 2 ^ 64 in
  let v3 := rotl64 v3 21 in
  let v3 := Z.lxor v3 v0 in
  let v2 := (v2 + v1) mod 2 ^ 64 in
  let v1 := rotl64 v1 17 in
  let v1 := Z.lxor v1 v2 in
  let v2 := rotl64 v2 32 in
  (v0, v1, v2, v3).

(** The round of the spec as a function on engine states. *)
Definition round_spec (s : CSipHash) : CSipHash :=
  let '(a, b, c, d) := round_lanes (v0 s) (v1 s) (v2 s) (v3 s) in
  mkCSipHash a b c d (padding s) (n_bytes s).

(** The spec's word step, [v3 ^= m; round(); round(); v0 ^= m]. *)
Definition mix (s : CSipHash) (m : Z) : CSipHash :=
  let s := set_v3 s (Z.lxor (v3 s) m) in
  let s := c_siphash_sipround s in
  let s := c_siphash_sipround s in
  set_v0 s (Z.lxor (v0 s) m).

(** [k] successive 8-byte little-endian words of [l], mixed in order. *)
Fixpoint absorb_words (k : nat) (s : CSipHash) (l : list byte) : CSipHash :=
  match k with
  | O => s
  | S k' => absorb_words k' (mix s (le_value (firstn 8 l))) (skipn 8 l)
  end.

(** Length of a list as an integer. *)
Definition zlen (l : list byte) : Z := Z.of_nat (length l).

(** The complete words of [l] and the bytes left after them. *)
Definition n_words (l : list byte) : nat := (length l / 8)%nat.
Definition trailing (l : list byte) : list byte := skipn (8 * n_words l) l.

(** What is left to do at a 64-bit boundary: mix the complete words of
    [data] and or the trailing bytes into [padding]. *)
Definition aligned_spec (s : CSipHash) (data : list byte) : CSipHash :=
  let s' := absorb_words (n_words data) s data in
  set_padding s' (Z.lor (padding s') (le_value (trailing data))).

(** The effect of appending exactly the bytes [data] to an arbitrary state:
    the result [c_siphash_append] is compared with. *)
Definition append_spec (s : CSipHash) (data : list byte) : CSipHash :=
  let r := (n_bytes s) mod 8 in
  let s1 := set_n_bytes s (wrap64 (n_bytes s + zlen data)) in
  if r =? 0 then aligned_spec s1 data
  else if zlen data <? 8 - r then
    set_padding s1 (Z.lor (padding s) (Z.shiftl (le_value data) (8 * r)))
  else
    let d := Z.to_nat (8 - r) in
    let m := Z.lor (padding s) (Z.shiftl (le_value (firstn d data)) (8 * r)) in
    aligned_spec (set_padding (mix s1 m) 0) (skipn d data).

(** A state whose lanes are those of [s], holding the bytes [held] in
    [padding] and counting [count] bytes. *)
Definition holding (s : CSipHash) (held : list byte) (count : Z) : CSipHash :=
  set_n_bytes (set_padding s (le_value held)) count.

(** The state of an engine started in [s0] that has been fed the message
    [msg]: the complete words mixed into the lanes, the trailing bytes held
    in [padding], the length counted modulo [2^64]. *)
Definition absorbed (s0 : CSipHash) (msg : list byte) : CSipHash :=
  holding (absorb_words (n_words msg) s0 msg) (trailing msg)
          (wrap64 (zlen msg)).

(** The state [c_siphash_init] builds from the two key words. *)
Definition init_state (k0 k1 : Z) : CSipHash :=
  mkCSipHash (Z.lxor 0x736f6d6570736575 k0) (Z.lxor 0x646f72616e646f6d k1)
             (Z.lxor 0x6c7967656e657261 k0) (Z.lxor 0x7465646279746573 k1)
             0 0.

(** The final block of the spec: the pending bytes with the low eight bits
    of the byte count placed in the top byte. *)
Definition final_block (s : CSipHash) : Z :=
  Z.lor (padding s) ((n_bytes s mod 2 ^ 8) * 2 ^ 56).

(** Finalization as the spec words it: mix the final block, flip the low
    byte of [v2], four rounds, xor of the lanes. *)
Definition finalize_spec (s : CSipHash) : Z :=
  let s := mix s (final_block s) in
  let s := set_v2 s (Z.lxor (v2 s) 0xff) in
  let s := Nat.iter 4 c_siphash_sipround s in
  Z.lxor (Z.lxor (Z.lxor (v0 s) (v1 s)) (v2 s)) (v3 s).

(** The last [r] bytes of a message. *)
Definition last_bytes (r : nat) (l : list byte) : list byte :=
  skipn (length l - r) l.

(** The byte at byte position [i] of a word: bits [8i .. 8i+7]. *)
Definition byte_at (x : Z) (i : nat) : Z := (x / 2 ^ (8 * Z.of_nat i)) mod 256.

(** A sequence of [c_siphash_append] calls, one per chunk, each with the
    chunk's own length. *)
Fixpoint append_all (s : CSipHash) (chunks : list (list byte)) : option CSipHash :=
  match chunks with
  | [] => Some s
  | c :: cs => s' <- c_siphash_append s c (zlen c) ;; append_all s' cs
  end.

(** [init], the appends of [chunks], then [finalize]. *)
Definition hash_chunks (seed : buffer) (chunks : list (list byte)) : option Z :=
  s <- c_siphash_init seed ;;
  s <- append_all s chunks ;;
  Some (snd (c_siphash_finalize s)).

(** [padding] holds nothing but the pending bytes: it is below
    [2^(8 r)] for [r = n_bytes mod 8] pending bytes. *)
Definition pending_ok (s : CSipHash) : Prop :=
  0 <= padding s < 2 ^ (8 * (n_bytes s mod 8)).

(** Concrete data the statements are tried on. *)
Definition sample_state : CSipHash := mkCSipHash 1 2 3 4 0 0.
Definition sample_bytes : buffer := [x01; x02; x03; x04; x05; x06; x07; x08; x09]%byte.

(** * Properties *)

#[global] Opaque c_siphash_sipround.

(** ** Bits and bytes *)

Lemma u8_range (b : byte) : 0 <= u8 b < 256.
Proof.
  unfold u8. pose proof (Byte.to_N_bounded b) as H.
  lia.
Qed.

Lemma wrap64_range (z : Z) : is_u64 (wrap64 z).
Proof. unfold is_u64, wrap64. apply Z.mod_pos_bound. lia. Qed.

Lemma wrap64_small (z : Z) : is_u64 z -> wrap64 z = z.
Proof. unfold is_u64, wrap64. intros H. apply Z.mod_small. exact H. Qed.

(** A number below [2^k] has no bit at position [k] or above. *)
Lemma testbit_high (k a i : Z) :
  0 <= a < 2 ^ k -> 0 <= k <= i -> Z.testbit a i = false.
Proof.
  intros Ha Hi. rewrite <- (Z.mod_small a (2 ^ k)) by exact Ha.
  apply Z.mod_pow2_bits_high. exact Hi.
Qed.

Lemma lor_range (k a b : Z) :
  0 <= k -> 0 <= a < 2 ^ k -> 0 <= b < 2 ^ k -> 0 <= Z.lor a b < 2 ^ k.
Proof.
  intros Hk Ha Hb.
  assert (E : Z.lor a b mod 2 ^ k = Z.lor a b).
  { apply Z.bits_inj'. intros i Hi.
    rewrite Z.testbit_mod_pow2, Z.lor_spec by exact Hk.
    destruct (Z.ltb_spec i k) as [Hlt | Hge]; [reflexivity |].
    rewrite (testbit_high k a i), (testbit_high k b i) by lia. reflexivity. }
  rewrite <- E. apply Z.mod_pos_bound. lia.
Qed.

Lemma lxor_range (k a b : Z) :
  0 <= k -> 0 <= a < 2 ^ k -> 0 <= b < 2 ^ k -> 0 <= Z.lxor a b < 2 ^ k.
Proof.
  intros Hk Ha Hb.
  assert (E : Z.lxor a b mod 2 ^ k = Z.lxor a b).
  { apply Z.bits_inj'. intros i Hi.
    rewrite Z.testbit_mod_pow2, Z.lxor_spec by exact Hk.
    destruct (Z.ltb_spec i k) as [Hlt | Hge]; [reflexivity |].
    rewrite (testbit_high k a i), (testbit_high k b i) by lia. reflexivity. }
  rewrite <- E. apply Z.mod_pos_bound. lia.
Qed.

(** Or-ing a small number with a multiple of a power of two above it is
    adding them. *)
Lemma lor_shiftl_add (k a b : Z) :
  0 <= k -> 0 <= a < 2 ^ k -> Z.lor a (Z.shiftl b k) = a + b * 2 ^ k.
Proof.
  intros Hk Ha.
  rewrite Z.shiftl_mul_pow2 by lia.
  assert (D : Z.land a (b * 2 ^ k) = 0); [| rewrite <- Z.lxor_lor by exact D;
    symmetry; apply Z.add_nocarry_lxor; exact D].
  apply Z.bits_inj'. intros i Hi.
  rewrite Z.land_spec, Z.bits_0.
  destruct (Z.lt_ge_cases i k) as [Hlt | Hge].
  - rewrite Z.mul_pow2_bits_low by lia. apply andb_false_r.
  - rewrite (testbit_high k a i) by lia. reflexivity.
Qed.

Lemma le_value_range (l : list byte) :
  0 <= le_value l < 2 ^ (8 * zlen l).
Proof.
  unfold zlen. induction l as [| b t IH]; cbn [le_value].
  - simpl. lia.
  - pose proof (u8_range b) as Hb.
    replace (8 * Z.of_nat (length (b :: t))) with (8 + 8 * Z.of_nat (length t))
      by (cbn [length]; lia).
    rewrite Z.pow_add_r by lia.
    change (2 ^ 8) with 256.
    remember (2 ^ (8 * Z.of_nat (length t))) as P. lia.
Qed.

Lemma le_value_app (l1 l2 : list byte) :
  le_value (l1 ++ l2) = le_value l1 + le_value l2 * 2 ^ (8 * zlen l1).
Proof.
  unfold zlen. induction l1 as [| b t IH]; cbn [le_value app].
  - simpl. lia.
  - rewrite IH.
    replace (8 * Z.of_nat (length (b :: t))) with (8 + 8 * Z.of_nat (length t))
      by (cbn [length]; lia).
    rewrite Z.pow_add_r by lia.
    change (2 ^ 8) with 256. ring.
Qed.

(** Appending bytes to a held prefix is or-ing them in above it. *)
Lemma le_value_app_lor (l1 l2 : list byte) :
  le_value (l1 ++ l2) = Z.lor (le_value l1) (Z.shiftl (le_value l2) (8 * zlen l1)).
Proof.
  rewrite lor_shiftl_add.
  - apply le_value_app.
  - unfold zlen. lia.
  - apply le_value_range.
Qed.

(** A byte shifted to one of the eight byte positions of a word is not
    truncated. *)
Lemma shl64_byte (x k : Z) :
  0 <= x < 256 -> 0 <= k <= 56 -> shl64 x k = x * 2 ^ k.
Proof.
  intros Hx Hk. unfold shl64, wrap64.
  rewrite Z.shiftl_mul_pow2 by lia.
  apply Z.mod_small.
  assert (H2 : 2 ^ k * 2 ^ (56 - k) = 2 ^ 56)
    by (rewrite <- Z.pow_add_r by lia; f_equal; lia).
  assert (Hp : 0 < 2 ^ k) by (apply Z.pow_pos_nonneg; lia).
  assert (Hq : 0 < 2 ^ (56 - k)) by (apply Z.pow_pos_nonneg; lia).
  change (2 ^ 64) with (256 * 2 ^ 56). nia.
Qed.

(** The or-and-shift expression of [c_siphash_read_le64] is the
    little-endian value of the eight bytes. *)
Lemma le64_lor (b0 b1 b2 b3 b4 b5 b6 b7 : byte) :
  Z.lor (Z.lor (Z.lor (Z.lor (Z.lor (Z.lor (Z.lor
    (u8 b0) (shl64 (u8 b1) 8)) (shl64 (u8 b2) 16)) (shl64 (u8 b3) 24))
    (shl64 (u8 b4) 32)) (shl64 (u8 b5) 40)) (shl64 (u8 b6) 48))
    (shl64 (u8 b7) 56)
  = le_value [b0; b1; b2; b3; b4; b5; b6; b7].
Proof.
  pose proof (u8_range b0). pose proof (u8_range b1).
  pose proof (u8_range b2). pose proof (u8_range b3).
  pose proof (u8_range b4). pose proof (u8_range b5).
  pose proof (u8_range b6). pose proof (u8_range b7).
  rewrite !shl64_byte by lia.
  rewrite <- !Z.shiftl_mul_pow2 by lia.
  rewrite (lor_shiftl_add 8) by lia.
  rewrite (lor_shiftl_add 16) by lia.
  rewrite (lor_shiftl_add 24) by lia.
  rewrite (lor_shiftl_add 32) by lia.
  rewrite (lor_shiftl_add 40) by lia.
  rewrite (lor_shiftl_add 48) by lia.
  rewrite (lor_shiftl_add 56) by lia.
  cbn [le_value]. lia.
Qed.

(** ** Reads *)

Lemma load_nth (mem : buffer) (p : Z) (b : byte) :
  0 <= p -> nth_error mem (Z.to_nat p) = Some b -> load mem p = Some (u8 b).
Proof.
  intros Hp Hn. unfold load.
  destruct (Z.ltb_spec p 0) as [Hneg | _]; [lia |].
  rewrite Hn. reflexivity.
Qed.

(** A read succeeds exactly inside the buffer. *)
Lemma load_in_bounds (mem : buffer) (p : Z) :
  load mem p <> None <-> 0 <= p < zlen mem.
Proof.
  unfold load, zlen.
  destruct (Z.ltb_spec p 0) as [Hneg | Hpos].
  - split; [congruence | lia].
  - destruct (nth_error mem (Z.to_nat p)) as [b |] eqn:E.
    + split; [intros _ | cbn; congruence].
      assert (Z.to_nat p < length mem)%nat
        by (apply nth_error_Some; congruence).
      lia.
    + split; [cbn; congruence | intros H].
      apply nth_error_None in E. lia.
Qed.

(** Reading at offset [p + i] is reading at [i] in what follows offset [p]. *)
Lemma load_skipn (mem : buffer) (p i : Z) :
  0 <= p -> 0 <= i ->
  load mem (p + i) = load (skipn (Z.to_nat p) mem) i.
Proof.
  intros Hp Hi. unfold load.
  destruct (Z.ltb_spec (p + i) 0) as [Hneg | _]; [lia |].
  destruct (Z.ltb_spec i 0) as [Hneg | _]; [lia |].
  rewrite nth_error_skipn. do 2 f_equal. lia.
Qed.

Lemma skipn_cons_length (mem : buffer) (k : nat) (b : byte) (t : list byte) :
  skipn k mem = b :: t -> skipn (S k) mem = t.
Proof.
  intros E. replace (S k) with (1 + k)%nat by lia.
  rewrite <- skipn_skipn, E. reflexivity.
Qed.

(** Inside the buffer [c_siphash_read_le64] returns the little-endian value
    of the eight bytes at [bytes]. *)
Lemma read_le64_value (mem : buffer) (p : Z) :
  0 <= p -> p + 8 <= zlen mem ->
  c_siphash_read_le64 mem p
  = Some (le_value (firstn 8 (skipn (Z.to_nat p) mem))).
Proof.
  intros Hp Hlen. unfold zlen in Hlen.
  assert (Hl : (8 <= length (skipn (Z.to_nat p) mem))%nat)
    by (rewrite length_skipn; lia).
  unfold c_siphash_read_le64.
  rewrite !load_skipn by lia.
  destruct (skipn (Z.to_nat p) mem)
    as [| b0 [| b1 [| b2 [| b3 [| b4 [| b5 [| b6 [| b7 rest]]]]]]]];
    cbn [length] in Hl; try lia.
  cbv [load bind option_map nth_error Z.to_nat Pos.to_nat Pos.iter_op Nat.add
         Z.ltb Z.compare].
  rewrite le64_lor. reflexivity.
Qed.

(** Outside the buffer it faults. *)
Lemma read_le64_fault (mem : buffer) (p : Z) :
  p < 0 \/ zlen mem < p + 8 -> c_siphash_read_le64 mem p = None.
Proof.
  intros H. unfold c_siphash_read_le64.
  destruct (load mem (p + 7)) as [b7 |] eqn:E7.
  - assert (B : 0 <= p + 7 < zlen mem)
      by (apply load_in_bounds; congruence).
    destruct (load mem (p + 0)) as [b0 |] eqn:E0.
    + assert (B0 : 0 <= p + 0 < zlen mem)
        by (apply load_in_bounds; congruence).
      lia.
    + reflexivity.
  - destruct (load mem (p + 0)), (load mem (p + 1)), (load mem (p + 2)),
      (load mem (p + 3)), (load mem (p + 4)), (load mem (p + 5)),
      (load mem (p + 6)); reflexivity.
Qed.

(** ** The round function leaves the byte bookkeeping alone *)

#[local] Transparent c_siphash_sipround.

Lemma sipround_padding (s : CSipHash) :
  padding (c_siphash_sipround s) = padding s.
Proof.
  lazy beta zeta iota delta
    [c_siphash_sipround padding set_v0 set_v1 set_v2 set_v3].
  reflexivity.
Qed.

Lemma sipround_n_bytes (s : CSipHash) :
  n_bytes (c_siphash_sipround s) = n_bytes s.
Proof.
  lazy beta zeta iota delta
    [c_siphash_sipround n_bytes set_v0 set_v1 set_v2 set_v3].
  reflexivity.
Qed.

#[local] Opaque c_siphash_sipround.

(** Reading a field back after writing another one. These are used as
    rewrite rules, so that no proof has to compare two engine states by
    computing the rounds. *)
Lemma padding_set_v0 (s : CSipHash) (x : Z) : padding (set_v0 s x) = padding s.
Proof. reflexivity. Qed.
Lemma padding_set_v3 (s : CSipHash) (x : Z) : padding (set_v3 s x) = padding s.
Proof. reflexivity. Qed.
Lemma padding_set_n_bytes (s : CSipHash) (x : Z) :
  padding (set_n_bytes s x) = padding s.
Proof. reflexivity. Qed.
Lemma padding_set_padding (s : CSipHash) (x : Z) : padding (set_padding s x) = x.
Proof. reflexivity. Qed.
Lemma n_bytes_set_v0 (s : CSipHash) (x : Z) : n_bytes (set_v0 s x) = n_bytes s.
Proof. reflexivity. Qed.
Lemma n_bytes_set_v3 (s : CSipHash) (x : Z) : n_bytes (set_v3 s x) = n_bytes s.
Proof. reflexivity. Qed.
Lemma n_bytes_set_padding (s : CSipHash) (x : Z) :
  n_bytes (set_padding s x) = n_bytes s.
Proof. reflexivity. Qed.
Lemma n_bytes_set_n_bytes (s : CSipHash) (x : Z) : n_bytes (set_n_bytes s x) = x.
Proof. reflexivity. Qed.

Create Rewrite HintDb fields.
#[global] Hint Rewrite padding_set_v0 padding_set_v3 padding_set_n_bytes
  padding_set_padding n_bytes_set_v0 n_bytes_set_v3 n_bytes_set_padding
  n_bytes_set_n_bytes sipround_padding sipround_n_bytes : fields.

Lemma mix_padding (s : CSipHash) (m : Z) : padding (mix s m) = padding s.
Proof. unfold mix. cbv beta zeta. autorewrite with fields. reflexivity. Qed.

Lemma mix_n_bytes (s : CSipHash) (m : Z) : n_bytes (mix s m) = n_bytes s.
Proof. unfold mix. cbv beta zeta. autorewrite with fields. reflexivity. Qed.

#[global] Hint Rewrite mix_padding mix_n_bytes : fields.

Lemma absorb_words_padding (k : nat) (s : CSipHash) (l : list byte) :
  padding (absorb_words k s l) = padding s.
Proof.
  revert s l. induction k as [| k IH]; intros s l; cbn [absorb_words].
  - reflexivity.
  - rewrite IH. apply mix_padding.
Qed.

Lemma absorb_words_n_bytes (k : nat) (s : CSipHash) (l : list byte) :
  n_bytes (absorb_words k s l) = n_bytes s.
Proof.
  revert s l. induction k as [| k IH]; intros s l; cbn [absorb_words].
  - reflexivity.
  - rewrite IH. apply mix_n_bytes.
Qed.

Lemma set_padding_same (s : CSipHash) : set_padding s (padding s) = s.
Proof. destruct s. reflexivity. Qed.

Lemma set_padding_twice (s : CSipHash) (x y : Z) :
  set_padding (set_padding s x) y = set_padding s y.
Proof. reflexivity. Qed.

(** ** The two loops *)

Lemma append_words_step (state : CSipHash) (mem : buffer) (bytes end_ : Z) :
  append_words state mem bytes end_ =
  if Z_lt_dec bytes end_ then
    m <- c_siphash_read_le64 mem bytes ;;
    append_words (mix state m) mem (bytes + 8) end_
  else Some (state, bytes).
Proof.
  rewrite append_words_equation_1.
  destruct (Z_lt_dec bytes end_); reflexivity.
Qed.

Lemma append_drain_step (state : CSipHash) (mem : buffer)
    (bytes end_ left_ : Z) :
  append_drain state mem bytes end_ left_ =
  if Z_lt_dec bytes end_ then
    if Z_lt_dec left_ 8 then
      b <- load mem bytes ;;
      append_drain
        (set_padding state (Z.lor (padding state) (shl64 b (left_ * 8))))
        mem (bytes + 1) end_ (left_ + 1)
    else Some (state, bytes, left_)
  else Some (state, bytes, left_).
Proof.
  rewrite append_drain_equation_1.
  destruct (Z_lt_dec bytes end_); [| reflexivity].
  rewrite append_drain_clause_1_equation_1.
  destruct (Z_lt_dec left_ 8); reflexivity.
Qed.

(** The word loop over [k] complete words inside the buffer mixes exactly
    those words and stops at its bound. *)
Lemma append_words_spec (mem : buffer) (k : nat) :
  forall (s : CSipHash) (p : Z),
    0 <= p -> p + 8 * Z.of_nat k <= zlen mem ->
    append_words s mem p (p + 8 * Z.of_nat k)
    = Some (absorb_words k s (skipn (Z.to_nat p) mem), p + 8 * Z.of_nat k).
Proof.
  induction k as [| k IH]; intros s p Hp Hlen; rewrite append_words_step.
  - destruct (Z_lt_dec p (p + 8 * Z.of_nat 0)) as [H | _]; [lia |].
    cbn [absorb_words]. do 2 f_equal. lia.
  - destruct (Z_lt_dec p (p + 8 * Z.of_nat (S k))) as [_ | H]; [| lia].
    rewrite read_le64_value by lia. cbn [bind absorb_words].
    replace (p + 8 * Z.of_nat (S k)) with (p + 8 + 8 * Z.of_nat k) by lia.
    rewrite IH by lia.
    rewrite skipn_skipn.
    replace (Z.to_nat (p + 8)) with (8 + Z.to_nat p)%nat by lia.
    reflexivity.
Qed.

Lemma shiftl_cons (b : byte) (v k : Z) :
  0 <= k ->
  Z.shiftl (u8 b + 256 * v) k
  = Z.lor (Z.shiftl (u8 b) k) (Z.shiftl v (k + 8)).
Proof.
  intros Hk. pose proof (u8_range b) as Hb.
  replace (u8 b + 256 * v) with (Z.lor (u8 b) (Z.shiftl v 8))
    by (rewrite lor_shiftl_add by lia; change (2 ^ 8) with 256; lia).
  rewrite Z.shiftl_lor, Z.shiftl_shiftl by lia.
  do 2 f_equal. lia.
Qed.

(** The byte loop run for [j] steps ors the next [j] bytes of the buffer
    into [padding], the first of them at byte position [left]. *)
Lemma append_drain_spec (mem : buffer) (end_ : Z) (j : nat) :
  forall (s : CSipHash) (p left_ : Z),
    0 <= p -> 0 <= left_ ->
    Z.of_nat j = Z.min (end_ - p) (8 - left_) ->
    p + Z.of_nat j <= zlen mem ->
    append_drain s mem p end_ left_
    = Some (set_padding s
              (Z.lor (padding s)
                 (Z.shiftl (le_value (firstn j (skipn (Z.to_nat p) mem)))
                    (8 * left_))),
            p + Z.of_nat j, left_ + Z.of_nat j).
Proof.
  induction j as [| j IH]; intros s p left_ Hp Hleft Hj Hlen;
    rewrite append_drain_step.
  - cbn [firstn le_value]. rewrite Z.shiftl_0_l, Z.lor_0_r, set_padding_same.
    replace (p + Z.of_nat 0) with p by lia.
    replace (left_ + Z.of_nat 0) with left_ by lia.
    destruct (Z_lt_dec p end_); [| reflexivity].
    destruct (Z_lt_dec left_ 8); [lia | reflexivity].
  - destruct (Z_lt_dec p end_) as [Hpe | Hpe]; [| lia].
    destruct (Z_lt_dec left_ 8) as [Hl8 | Hl8]; [| lia].
    unfold zlen in Hlen.
    destruct (skipn (Z.to_nat p) mem) as [| b rest] eqn:E.
    { assert (length (skipn (Z.to_nat p) mem) = 0%nat) by (rewrite E; reflexivity).
      rewrite length_skipn in *. lia. }
    assert (Hn : nth_error mem (Z.to_nat p) = Some b).
    { rewrite <- (Nat.add_0_r (Z.to_nat p)), <- nth_error_skipn, E.
      reflexivity. }
    rewrite (load_nth mem p b Hp Hn). cbn [bind].
    apply skipn_cons_length in E.
    rewrite (IH _ (p + 1) (left_ + 1)); try lia;
      [| unfold zlen; lia].
    replace (Z.to_nat (p + 1)) with (S (Z.to_nat p)) by lia.
    rewrite E. cbn [padding set_padding firstn le_value].
    rewrite shl64_byte by (pose proof (u8_range b); lia).
    rewrite shiftl_cons by lia.
    rewrite <- Z.shiftl_mul_pow2 by lia.
    rewrite Z.lor_assoc.
    replace (8 * (left_ + 1)) with (8 * left_ + 8) by lia.
    replace (left_ * 8) with (8 * left_) by lia.
    rewrite set_padding_twice.
    replace (p + 1 + Z.of_nat j) with (p + Z.of_nat (S j)) by lia.
    replace (left_ + 1 + Z.of_nat j) with (left_ + Z.of_nat (S j)) by lia.
    reflexivity.
Qed.

(** ** The switch *)

Lemma firstn_snoc (l : list byte) (k : nat) (b : byte) :
  nth_error l k = Some b -> firstn (S k) l = firstn k l ++ [b].
Proof.
  revert k. induction l as [| a t IH]; intros k H.
  - destruct k; discriminate.
  - destruct k as [| k].
    + cbn in H. injection H as ->. reflexivity.
    + cbn [nth_error] in H. cbn [firstn app]. f_equal. exact (IH k H).
Qed.

Lemma le_value_firstn_S (l : list byte) (k : nat) (b : byte) :
  nth_error l k = Some b ->
  le_value (firstn (S k) l)
  = Z.lor (le_value (firstn k l)) (Z.shiftl (u8 b) (8 * Z.of_nat k)).
Proof.
  intros H. rewrite (firstn_snoc l k b H), le_value_app_lor.
  assert (Hk : (k < length l)%nat) by (apply nth_error_Some; congruence).
  unfold zlen. rewrite length_firstn, Nat.min_l by lia.
  cbn [le_value]. do 2 f_equal. lia.
Qed.

Lemma load_offset (mem : buffer) (p : Z) (k : nat) (b : byte) :
  0 <= p -> nth_error (skipn (Z.to_nat p) mem) k = Some b ->
  load mem (p + Z.of_nat k) = Some (u8 b).
Proof.
  intros Hp H. rewrite load_skipn by lia.
  apply load_nth; [lia |]. rewrite Nat2Z.id. exact H.
Qed.

(** The statement of the lowest label ors byte 0 in. *)
Lemma or_byte_first (mem : buffer) (p : Z) (b : byte) (s : CSipHash) :
  0 <= p -> nth_error (skipn (Z.to_nat p) mem) 0 = Some b ->
  append_or_byte s mem p 0 0
  = Some (set_padding s
            (Z.lor (padding s)
               (le_value (firstn 1 (skipn (Z.to_nat p) mem))))).
Proof.
  intros Hp H. unfold append_or_byte.
  pose proof (load_offset mem p 0 b Hp H) as L. cbn [Z.of_nat] in L.
  rewrite L. cbn [bind].
  rewrite (le_value_firstn_S _ 0 b H).
  rewrite shl64_byte by (pose proof (u8_range b); lia).
  cbn [firstn le_value]. rewrite Z.lor_0_l, Z.shiftl_0_r.
  do 3 f_equal. lia.
Qed.

(** One label more: if the labels below [k + 1] or the first [k] bytes in,
    the statement of label [k + 1] followed by them ors the first [k + 1]
    bytes in. *)
Lemma or_byte_step (mem : buffer) (p : Z) (k : nat) (b : byte)
    (f : CSipHash -> option CSipHash) (s : CSipHash) :
  0 <= p -> (k <= 6)%nat ->
  nth_error (skipn (Z.to_nat p) mem) k = Some b ->
  (forall s', f s'
     = Some (set_padding s'
               (Z.lor (padding s')
                  (le_value (firstn k (skipn (Z.to_nat p) mem)))))) ->
  (s' <- append_or_byte s mem p (Z.of_nat k) (8 * Z.of_nat k) ;; f s')
  = Some (set_padding s
            (Z.lor (padding s)
               (le_value (firstn (S k) (skipn (Z.to_nat p) mem))))).
Proof.
  intros Hp Hk H Hf. unfold append_or_byte.
  rewrite (load_offset mem p k b Hp H). cbn [bind].
  rewrite Hf, set_padding_twice, padding_set_padding.
  rewrite (le_value_firstn_S _ k b H).
  rewrite shl64_byte by (pose proof (u8_range b); lia).
  rewrite <- Z.shiftl_mul_pow2 by lia.
  rewrite <- Z.lor_assoc.
  rewrite (Z.lor_comm (Z.shiftl (u8 b) (8 * Z.of_nat k))).
  reflexivity.
Qed.

Section Switch.

Variables (mem : buffer) (p : Z).
Hypothesis Hp : 0 <= p.

Local Abbreviation l := (skipn (Z.to_nat p) mem).

(** What the statements from label [k] down are expected to do. *)
Local Abbreviation ors k f :=
  (forall s : CSipHash,
     f s = Some (set_padding s (Z.lor (padding s) (le_value (firstn k l))))).

Lemma append_case1_spec b0 :
  nth_error l 0 = Some b0 -> ors 1%nat (fun s => append_case1 s mem p).
Proof. intros H0 s. apply (or_byte_first mem p b0 s Hp H0). Qed.

Lemma append_case2_spec b0 b1 :
  nth_error l 0 = Some b0 -> nth_error l 1 = Some b1 ->
  ors 2 (fun s => append_case2 s mem p).
Proof.
  intros H0 H1 s.
  apply (or_byte_step mem p 1 b1 (fun s => append_case1 s mem p) s Hp);
    [lia | exact H1 | exact (append_case1_spec b0 H0)].
Qed.

Lemma append_case3_spec b0 b1 b2 :
  nth_error l 0 = Some b0 -> nth_error l 1 = Some b1 ->
  nth_error l 2 = Some b2 -> ors 3 (fun s => append_case3 s mem p).
Proof.
  intros H0 H1 H2 s.
  apply (or_byte_step mem p 2 b2 (fun s => append_case2 s mem p) s Hp);
    [lia | exact H2 | exact (append_case2_spec b0 b1 H0 H1)].
Qed.

Lemma append_case4_spec b0 b1 b2 b3 :
  nth_error l 0 = Some b0 -> nth_error l 1 = Some b1 ->
  nth_error l 2 = Some b2 -> nth_error l 3 = Some b3 ->
  ors 4 (fun s => append_case4 s mem p).
Proof.
  intros H0 H1 H2 H3 s.
  apply (or_byte_step mem p 3 b3 (fun s => append_case3 s mem p) s Hp);
    [lia | exact H3 | exact (append_case3_spec b0 b1 b2 H0 H1 H2)].
Qed.

Lemma append_case5_spec b0 b1 b2 b3 b4 :
  nth_error l 0 = Some b0 -> nth_error l 1 = Some b1 ->
  nth_error l 2 = Some b2 -> nth_error l 3 = Some b3 ->
  nth_error l 4 = Some b4 -> ors 5 (fun s => append_case5 s mem p).
Proof.
  intros H0 H1 H2 H3 H4 s.
  apply (or_byte_step mem p 4 b4 (fun s => append_case4 s mem p) s Hp);
    [lia | exact H4 | exact (append_case4_spec b0 b1 b2 b3 H0 H1 H2 H3)].
Qed.

Lemma append_case6_spec b0 b1 b2 b3 b4 b5 :
  nth_error l 0 = Some b0 -> nth_error l 1 = Some b1 ->
  nth_error l 2 = Some b2 -> nth_error l 3 = Some b3 ->
  nth_error l 4 = Some b4 -> nth_error l 5 = Some b5 ->
  ors 6 (fun s => append_case6 s mem p).
Proof.
  intros H0 H1 H2 H3 H4 H5 s.
  apply (or_byte_step mem p 5 b5 (fun s => append_case5 s mem p) s Hp);
    [lia | exact H5 | exact (append_case5_spec b0 b1 b2 b3 b4 H0 H1 H2 H3 H4)].
Qed.

Lemma append_case7_spec b0 b1 b2 b3 b4 b5 b6 :
  nth_error l 0 = Some b0 -> nth_error l 1 = Some b1 ->
  nth_error l 2 = Some b2 -> nth_error l 3 = Some b3 ->
  nth_error l 4 = Some b4 -> nth_error l 5 = Some b5 ->
  nth_error l 6 = Some b6 -> ors 7 (fun s => append_case7 s mem p).
Proof.
  intros H0 H1 H2 H3 H4 H5 H6 s.
  apply (or_byte_step mem p 6 b6 (fun s => append_case6 s mem p) s Hp);
    [lia | exact H6
     | exact (append_case6_spec b0 b1 b2 b3 b4 b5 H0 H1 H2 H3 H4 H5)].
Qed.

(** With [left] bytes readable at [bytes], the switch ors exactly those
    bytes into [padding], byte [i] at byte position [i]. *)
Lemma append_switch_spec (s : CSipHash) (left_ : Z) :
  0 <= left_ <= 7 -> p + left_ <= zlen mem ->
  append_switch s mem p left_
  = Some (set_padding s
            (Z.lor (padding s) (le_value (firstn (Z.to_nat left_) l)))).
Proof.
  intros Hl Hlen.
  assert (Hll : (Z.to_nat left_ <= length l)%nat).
  { unfold zlen in *. rewrite length_skipn. lia. }
  assert (C : left_ = 0 \/ left_ = 1 \/ left_ = 2 \/ left_ = 3 \/
              left_ = 4 \/ left_ = 5 \/ left_ = 6 \/ left_ = 7) by lia.
  destruct l as [| b0 [| b1 [| b2 [| b3 [| b4 [| b5 [| b6 rest]]]]]]] eqn:El;
    destruct C as [-> | [-> | [-> | [-> | [-> | [-> | [-> | ->]]]]]]];
    cbn [length] in Hll; try lia;
    try (cbn [append_switch Z.to_nat firstn le_value];
         rewrite Z.lor_0_r, set_padding_same; reflexivity);
    rewrite <- El; cbn [append_switch].
  all: first
    [ eapply append_case1_spec | eapply append_case2_spec
    | eapply append_case3_spec | eapply append_case4_spec
    | eapply append_case5_spec | eapply append_case6_spec
    | eapply append_case7_spec ];
    rewrite El; reflexivity.
Qed.

End Switch.

(** ** [c_siphash_append] against [append_spec] *)

(** The words mixed depend on the first [8 * k] bytes only. *)
Lemma absorb_words_firstn (k n : nat) :
  forall (s : CSipHash) (l : list byte),
    (8 * k <= n)%nat ->
    absorb_words k s (firstn n l) = absorb_words k s l.
Proof.
  revert n. induction k as [| k IH]; intros n s l Hn; cbn [absorb_words].
  - reflexivity.
  - rewrite firstn_firstn, Nat.min_l by lia.
    rewrite skipn_firstn_comm. apply IH. lia.
Qed.

Lemma land_7 (x : Z) : Z.land x 7 = x mod 8.
Proof. change 7 with (Z.ones 3). rewrite Z.land_ones by lia. reflexivity. Qed.

Lemma wrap64_mod8 (x : Z) : wrap64 x mod 8 = x mod 8.
Proof.
  unfold wrap64. apply Z.mod_mod_divide.
  exists (2 ^ 61). reflexivity.
Qed.

(** Lines 133-179 at a 64-bit boundary: with the bytes from [bytes] to [end]
    readable and their number congruent to the byte count modulo 8, the
    complete words are mixed and the rest is or-ed into [padding]. *)
Lemma append_aligned_spec (mem : buffer) (s : CSipHash) (p e : Z) :
  0 <= p <= e -> e <= zlen mem ->
  (e - p) mod 8 = n_bytes s mod 8 ->
  append_aligned s mem p e
  = Some (aligned_spec s (firstn (Z.to_nat (e - p)) (skipn (Z.to_nat p) mem))).
Proof.
  intros Hp He Hmod. unfold append_aligned.
  set (r := n_bytes s mod 8) in *.
  assert (Hr : 0 <= r < 8) by (apply Z.mod_pos_bound; lia).
  set (k := Z.to_nat ((e - p) / 8)).
  assert (Hk : e - p = 8 * Z.of_nat k + r).
  { unfold k. rewrite Z2Nat.id by (apply Z.div_pos; lia).
    rewrite <- Hmod. apply Z.div_mod. lia. }
  replace (e - r) with (p + 8 * Z.of_nat k) by lia.
  rewrite append_words_spec by lia.
  cbn [bind]. cbv beta iota zeta.
  rewrite land_7, absorb_words_n_bytes. fold r.
  rewrite append_switch_spec by lia.
  unfold aligned_spec.
  set (data := firstn (Z.to_nat (e - p)) (skipn (Z.to_nat p) mem)).
  assert (Hlen : length data = (8 * k + Z.to_nat r)%nat).
  { unfold data, zlen in *. rewrite length_firstn, length_skipn. lia. }
  assert (Hw : n_words data = k).
  { unfold n_words. rewrite Hlen.
    assert (Z.to_nat r < 8)%nat by lia.
    rewrite Nat.mul_comm, Nat.div_add_l by lia.
    rewrite Nat.div_small by lia. lia. }
  unfold trailing. rewrite Hw.
  unfold data at 1 2.
  rewrite absorb_words_firstn by lia.
  unfold data. rewrite skipn_firstn_comm, skipn_skipn.
  replace (Z.to_nat (e - p) - 8 * k)%nat with (Z.to_nat r) by lia.
  replace (Z.to_nat (p + 8 * Z.of_nat k)) with (8 * k + Z.to_nat p)%nat by lia.
  reflexivity.
Qed.

#[local] Transparent c_siphash_sipround.

(** The rounds do not read [padding]. *)
Lemma mix_set_padding (s : CSipHash) (x m : Z) :
  mix (set_padding s x) m = set_padding (mix s m) x.
Proof.
  destruct s as [a b c d q n].
  lazy beta iota zeta delta
    [mix c_siphash_sipround set_v0 set_v1 set_v2 set_v3 set_padding
     v0 v1 v2 v3 padding n_bytes].
  reflexivity.
Qed.
#[local] Opaque c_siphash_sipround.

Lemma mix_inline (s : CSipHash) (m : Z) :
  set_v0 (c_siphash_sipround (c_siphash_sipround (set_v3 s (Z.lxor (v3 s) m))))
    (Z.lxor
       (v0 (c_siphash_sipround
              (c_siphash_sipround (set_v3 s (Z.lxor (v3 s) m))))) m)
  = mix s m.
Proof. reflexivity. Qed.

(** The whole of [c_siphash_append]: on a buffer with at least [n] readable
    bytes, and from any state, the call succeeds and its effect is
    [append_spec] of the first [n] bytes. *)
Lemma append_correct (s : CSipHash) (mem : buffer) (n : Z) :
  0 <= n <= zlen mem ->
  c_siphash_append s mem n = Some (append_spec s (firstn (Z.to_nat n) mem)).
Proof.
  intros Hn.
  set (data := firstn (Z.to_nat n) mem).
  assert (Hdata : zlen data = n).
  { unfold data, zlen in *. rewrite length_firstn. lia. }
  unfold c_siphash_append, append_spec.
  rewrite Hdata, land_7. unfold add64.
  set (r := n_bytes s mod 8).
  assert (Hr : 0 <= r < 8) by (apply Z.mod_pos_bound; lia).
  set (s1 := set_n_bytes s (wrap64 (n_bytes s + n))).
  assert (Hs1 : n_bytes s1 mod 8 = (r + n) mod 8).
  { unfold s1. rewrite n_bytes_set_n_bytes, wrap64_mod8.
    unfold r. rewrite Zplus_mod_idemp_l. reflexivity. }
  cbv zeta.
  destruct (Z.ltb_spec 0 r) as [Hpos | Hzero].
  - destruct (Z.eqb_spec r 0) as [H0 | _]; [lia |].
    rewrite (append_drain_spec mem (0 + n) (Z.to_nat (Z.min n (8 - r))))
      by (unfold zlen in *; lia).
    cbn [bind]. cbv beta iota.
    change (skipn (Z.to_nat 0) mem) with mem.
    assert (Hp1 : padding s1 = padding s) by reflexivity.
    rewrite Hp1.
    destruct (Z.ltb_spec n (8 - r)) as [Hshort | Hfill].
    + replace (Z.to_nat (Z.min n (8 - r))) with (Z.to_nat n) by lia.
      fold data. rewrite Z2Nat.id by lia.
      rewrite Z.eqb_refl.
      destruct (Z.ltb_spec (r + n) 8) as [_ | H]; [| lia].
      reflexivity.
    + replace (Z.min n (8 - r)) with (8 - r) by lia.
      rewrite Z2Nat.id by lia.
      replace (r + (8 - r)) with 8 by lia.
      rewrite andb_false_r.
      autorewrite with fields.
      rewrite mix_inline, mix_set_padding, set_padding_twice.
      rewrite append_aligned_spec;
        [| lia | lia | autorewrite with fields; rewrite Hs1 ].
      * unfold data. rewrite firstn_firstn, Nat.min_l by lia.
        rewrite skipn_firstn_comm.
        replace (Z.to_nat (0 + n - (0 + (8 - r))))
          with (Z.to_nat n - Z.to_nat (8 - r))%nat by lia.
        replace (Z.to_nat (0 + (8 - r))) with (Z.to_nat (8 - r)) by lia.
        reflexivity.
      * replace (0 + n - (0 + (8 - r))) with (r + n + (-1) * 8) by lia.
        apply Z_mod_plus_full.
  - assert (H0 : r = 0) by lia.
    destruct (Z.eqb_spec r 0) as [_ | H]; [| lia].
    rewrite append_aligned_spec; [| lia | lia | ].
    + replace (0 + n - 0) with n by lia. reflexivity.
    + fold s1. rewrite Hs1, H0. f_equal. lia.
Qed.

(** ** Feeding a message in pieces *)

#[local] Transparent c_siphash_sipround.

Lemma mix_set_n_bytes (s : CSipHash) (x m : Z) :
  mix (set_n_bytes s x) m = set_n_bytes (mix s m) x.
Proof.
  destruct s as [a b c d q n].
  lazy beta iota zeta delta
    [mix c_siphash_sipround set_v0 set_v1 set_v2 set_v3 set_n_bytes
     v0 v1 v2 v3 padding n_bytes].
  reflexivity.
Qed.

#[local] Opaque c_siphash_sipround.

Lemma absorb_words_set_padding (k : nat) :
  forall (s : CSipHash) (x : Z) (l : list byte),
    absorb_words k (set_padding s x) l = set_padding (absorb_words k s l) x.
Proof.
  induction k as [| k IH]; intros s x l; cbn [absorb_words].
  - reflexivity.
  - rewrite mix_set_padding. apply IH.
Qed.

Lemma absorb_words_set_n_bytes (k : nat) :
  forall (s : CSipHash) (x : Z) (l : list byte),
    absorb_words k (set_n_bytes s x) l = set_n_bytes (absorb_words k s l) x.
Proof.
  induction k as [| k IH]; intros s x l; cbn [absorb_words].
  - reflexivity.
  - rewrite mix_set_n_bytes. apply IH.
Qed.

Lemma set_padding_set_n_bytes (s : CSipHash) (x y : Z) :
  set_padding (set_n_bytes s x) y = set_n_bytes (set_padding s y) x.
Proof. reflexivity. Qed.

Lemma set_n_bytes_twice (s : CSipHash) (x y : Z) :
  set_n_bytes (set_n_bytes s x) y = set_n_bytes s y.
Proof. reflexivity. Qed.

(** Words of a message that starts with [a] complete words. *)
Lemma absorb_words_app (a b : nat) :
  forall (s : CSipHash) (l1 l2 : list byte),
    length l1 = (8 * a)%nat ->
    absorb_words (a + b) s (l1 ++ l2)
    = absorb_words b (absorb_words a s l1) l2.
Proof.
  induction a as [| a IH]; intros s l1 l2 Hl.
  - destruct l1; [reflexivity | discriminate].
  - cbn [Nat.add absorb_words].
    rewrite firstn_app, skipn_app.
    replace (8 - length l1)%nat with 0%nat by lia.
    rewrite firstn_O, skipn_O, app_nil_r.
    apply IH. rewrite length_skipn. lia.
Qed.

Lemma n_words_app (a : nat) (l1 l2 : list byte) :
  length l1 = (8 * a)%nat -> n_words (l1 ++ l2) = (a + n_words l2)%nat.
Proof.
  intros Hl. unfold n_words. rewrite length_app, Hl.
  rewrite Nat.mul_comm, Nat.div_add_l by lia. reflexivity.
Qed.

Lemma trailing_app (a : nat) (l1 l2 : list byte) :
  length l1 = (8 * a)%nat -> trailing (l1 ++ l2) = trailing l2.
Proof.
  intros Hl. unfold trailing. rewrite (n_words_app a) by exact Hl.
  rewrite skipn_app.
  replace (8 * (a + n_words l2) - length l1)%nat with (8 * n_words l2)%nat
    by lia.
  rewrite skipn_all2 by lia. reflexivity.
Qed.

(** A message is its complete words followed by its trailing bytes, fewer
    than eight. *)
Lemma words_trailing (l : list byte) :
  l = firstn (8 * n_words l) l ++ trailing l.
Proof. unfold trailing. symmetry. apply firstn_skipn. Qed.

Lemma length_words (l : list byte) :
  length (firstn (8 * n_words l) l) = (8 * n_words l)%nat.
Proof.
  rewrite length_firstn. unfold n_words.
  pose proof (Nat.div_mod_eq (length l) 8). lia.
Qed.

Lemma length_trailing (l : list byte) :
  length (trailing l) = (length l mod 8)%nat.
Proof.
  unfold trailing, n_words. rewrite length_skipn.
  pose proof (Nat.div_mod_eq (length l) 8). lia.
Qed.

Lemma n_words_short (l : list byte) : (length l < 8)%nat -> n_words l = 0%nat.
Proof. intros H. unfold n_words. apply Nat.div_small. exact H. Qed.

Lemma trailing_short (l : list byte) : (length l < 8)%nat -> trailing l = l.
Proof. intros H. unfold trailing. rewrite n_words_short by exact H. reflexivity. Qed.

Lemma n_bytes_holding (s : CSipHash) (held : list byte) (count : Z) :
  n_bytes (holding s held count) = count.
Proof. reflexivity. Qed.

Lemma padding_holding (s : CSipHash) (held : list byte) (count : Z) :
  padding (holding s held count) = le_value held.
Proof. reflexivity. Qed.

(** Setters applied to a state that will be given a new [padding] and a new
    count anyway. *)
Lemma holding_over (s : CSipHash) (x y : Z) (held : list byte) (count : Z) :
  holding (set_n_bytes (set_padding s x) y) held count = holding s held count.
Proof. reflexivity. Qed.

(** Appending [data] to an engine that holds fewer than eight bytes: the
    held bytes and [data] are consumed as one stream. *)
Lemma append_spec_holding (s : CSipHash) (held data : list byte) (count : Z) :
  (length held < 8)%nat -> count mod 8 = zlen held ->
  append_spec (holding s held count) data
  = holding (absorb_words (n_words (held ++ data)) s (held ++ data))
            (trailing (held ++ data)) (wrap64 (count + zlen data)).
Proof.
  intros Hheld Hcount. unfold append_spec.
  rewrite n_bytes_holding, padding_holding, Hcount.
  set (w := wrap64 (count + zlen data)).
  unfold zlen in *.
  destruct (Z.eqb_spec (Z.of_nat (length held)) 0) as [Hz | Hnz].
  - destruct held as [| b t]; [| cbn [length] in Hz; lia].
    cbn [app]. unfold aligned_spec, holding. cbn [le_value].
    rewrite absorb_words_set_n_bytes, absorb_words_set_n_bytes.
    rewrite absorb_words_set_padding.
    autorewrite with fields. rewrite Z.lor_0_l.
    reflexivity.
  - destruct (Z.ltb_spec (Z.of_nat (length data)) (8 - Z.of_nat (length held)))
      as [Hshort | Hfill].
    + assert (Hl : (length (held ++ data) < 8)%nat)
        by (rewrite length_app; lia).
      rewrite n_words_short, trailing_short by exact Hl.
      cbn [absorb_words]. unfold holding. rewrite le_value_app_lor.
      reflexivity.
    + set (d := Z.to_nat (8 - Z.of_nat (length held))).
      assert (Hd : (d = 8 - length held)%nat) by lia.
      assert (Hfull : length (held ++ firstn d data) = (8 * 1)%nat).
      { rewrite length_app, length_firstn. lia. }
      assert (E : held ++ data = (held ++ firstn d data) ++ skipn d data)
        by (rewrite <- app_assoc, firstn_skipn; reflexivity).
      rewrite E.
      rewrite (n_words_app 1), (trailing_app 1) by exact Hfull.
      rewrite (absorb_words_app 1) by exact Hfull.
      cbn [absorb_words]. rewrite (firstn_all2 (n := 8)) by (rewrite Hfull; lia).
      rewrite le_value_app_lor.
      unfold aligned_spec, holding.
      rewrite !mix_set_n_bytes, mix_set_padding.
      rewrite absorb_words_set_padding, !absorb_words_set_n_bytes.
      rewrite absorb_words_set_padding.
      autorewrite with fields. rewrite Z.lor_0_l.
      reflexivity.
Qed.

Lemma wrap64_add_l (x y : Z) : wrap64 (wrap64 x + y) = wrap64 (x + y).
Proof. unfold wrap64. apply Zplus_mod_idemp_l. Qed.

Lemma zlen_app (l1 l2 : list byte) : zlen (l1 ++ l2) = zlen l1 + zlen l2.
Proof. unfold zlen. rewrite length_app. lia. Qed.

(** Streaming, at the level of the reference: appending [data] to an engine
    that has absorbed [msg] gives the engine that has absorbed
    [msg ++ data]. *)
Lemma append_spec_absorbed (s0 : CSipHash) (msg data : list byte) :
  append_spec (absorbed s0 msg) data = absorbed s0 (msg ++ data).
Proof.
  unfold absorbed.
  rewrite append_spec_holding.
  - rewrite wrap64_add_l, <- zlen_app.
    assert (E : msg ++ data
                = firstn (8 * n_words msg) msg ++ (trailing msg ++ data))
      by (rewrite app_assoc, <- words_trailing; reflexivity).
    rewrite E.
    set (P := firstn (8 * n_words msg) msg).
    rewrite (n_words_app (n_words msg) P), (trailing_app (n_words msg) P)
      by apply length_words.
    rewrite (absorb_words_app (n_words msg) _ _ P) by apply length_words.
    unfold P. rewrite absorb_words_firstn by lia.
    reflexivity.
  - rewrite length_trailing. apply Nat.mod_upper_bound. lia.
  - rewrite wrap64_mod8. unfold zlen. rewrite length_trailing.
    rewrite Nat2Z.inj_mod. reflexivity.
Qed.

(** ** [c_siphash_init] and sequences of calls *)

Lemma init_value (seed : buffer) :
  (16 <= length seed)%nat ->
  c_siphash_init seed
  = Some (init_state (le_value (firstn 8 seed))
                     (le_value (firstn 8 (skipn 8 seed)))).
Proof.
  intros H. unfold c_siphash_init.
  rewrite !read_le64_value by (unfold zlen; lia).
  reflexivity.
Qed.

Lemma init_state_absorbed (k0 k1 : Z) :
  init_state k0 k1 = absorbed (init_state k0 k1) [].
Proof. reflexivity. Qed.

Lemma firstn_zlen (l : list byte) : firstn (Z.to_nat (zlen l)) l = l.
Proof. unfold zlen. rewrite Nat2Z.id. apply firstn_all. Qed.

(** Whatever the chunks, the appends succeed and leave the engine in the
    state of having absorbed their concatenation. *)
Lemma append_all_absorbed (s0 : CSipHash) (chunks : list (list byte)) :
  forall msg : list byte,
    append_all (absorbed s0 msg) chunks
    = Some (absorbed s0 (msg ++ concat chunks)).
Proof.
  induction chunks as [| c cs IH]; intros msg; cbn [append_all concat].
  - rewrite app_nil_r. reflexivity.
  - rewrite append_correct by (unfold zlen; lia).
    rewrite firstn_zlen, append_spec_absorbed. cbn [bind].
    rewrite IH, app_assoc. reflexivity.
Qed.

(** ** Rotation and the round *)

Lemma shr_range (x n : Z) : is_u64 x -> 0 <= n -> is_u64 (shr64 x n).
Proof.
  unfold is_u64, shr64. intros Hx Hn.
  rewrite Z.shiftr_div_pow2 by exact Hn.
  assert (Hp : 0 < 2 ^ n) by (apply Z.pow_pos_nonneg; lia).
  split.
  - apply Z.div_pos; lia.
  - apply Z.le_lt_trans with x; [| lia].
    apply Z.div_le_upper_bound; [lia | nia].
Qed.

Lemma rotate_left_range (x b : Z) :
  is_u64 x -> 0 <= b <= 64 -> is_u64 (c_siphash_rotate_left x b).
Proof.
  intros Hx Hb. unfold c_siphash_rotate_left.
  apply lor_range; [lia | apply wrap64_range | apply shr_range; [exact Hx | lia]].
Qed.

(** The code's shift-and-or is the arithmetic rotation. *)
Lemma rotate_left_arith (x b : Z) :
  is_u64 x -> 0 < b < 64 -> c_siphash_rotate_left x b = rotl64 x b.
Proof.
  unfold is_u64. intros Hx Hb.
  unfold c_siphash_rotate_left, rotl64, shl64, shr64, wrap64.
  rewrite Z.shiftl_mul_pow2, Z.shiftr_div_pow2 by lia.
  assert (H64 : 2 ^ 64 = 2 ^ (64 - b) * 2 ^ b)
    by (rewrite <- Z.pow_add_r by lia; f_equal; lia).
  assert (Hp : 0 < 2 ^ b) by (apply Z.pow_pos_nonneg; lia).
  assert (Hq : 0 < 2 ^ (64 - b)) by (apply Z.pow_pos_nonneg; lia).
  rewrite H64.
  rewrite Z.mul_mod_distr_r by lia.
  rewrite Z.lor_comm, <- Z.shiftl_mul_pow2 by lia.
  rewrite lor_shiftl_add; [rewrite Z.shiftl_mul_pow2 by lia; lia | lia |].
  split; [apply Z.div_pos; lia |].
  apply Z.div_lt_upper_bound; [lia |]. rewrite <- H64. lia.
Qed.

Lemma lxor_u64 (x y : Z) : is_u64 x -> is_u64 y -> is_u64 (Z.lxor x y).
Proof. intros Hx Hy. apply lxor_range; [lia | exact Hx | exact Hy]. Qed.

Lemma lor_u64 (x y : Z) : is_u64 x -> is_u64 y -> is_u64 (Z.lor x y).
Proof. intros Hx Hy. apply lor_range; [lia | exact Hx | exact Hy]. Qed.

Lemma add64_u64 (x y : Z) : is_u64 (add64 x y).
Proof. apply wrap64_range. Qed.

Lemma rotate_left_u64 (x b : Z) :
  is_u64 x -> 0 <= b <= 64 -> is_u64 (c_siphash_rotate_left x b).
Proof. apply rotate_left_range. Qed.

Lemma rotl64_u64 (x b : Z) : is_u64 x -> 0 < b < 64 -> is_u64 (rotl64 x b).
Proof.
  intros Hx Hb. rewrite <- rotate_left_arith by assumption.
  apply rotate_left_range; [exact Hx | lia].
Qed.

Lemma mod64_u64 (x : Z) : is_u64 (x mod 2 ^ 64).
Proof. apply wrap64_range. Qed.

Create HintDb u64 discriminated.
#[global] Hint Resolve lxor_u64 lor_u64 add64_u64 wrap64_range mod64_u64 : u64.
#[global] Hint Extern 1 (is_u64 (c_siphash_rotate_left _ _)) =>
  apply rotate_left_u64; [| lia] : u64.
#[global] Hint Extern 1 (is_u64 (rotl64 _ _)) =>
  apply rotl64_u64; [| lia] : u64.

#[local] Transparent c_siphash_sipround.

(** The round on in-range lanes, with every rotation in arithmetic form. *)
Lemma sipround_round_spec (s : CSipHash) :
  state_ok s -> c_siphash_sipround s = round_spec s.
Proof.
  destruct s as [a b c d q n].
  unfold state_ok. cbn [v0 v1 v2 v3 padding n_bytes].
  intros (Ha & Hb & Hc & Hd & _ & _).
  lazy beta iota zeta delta
    [c_siphash_sipround round_spec round_lanes
     set_v0 set_v1 set_v2 set_v3 v0 v1 v2 v3 padding n_bytes].
  unfold add64, wrap64.
  rewrite !rotate_left_arith by (try lia; auto 10 with u64).
  reflexivity.
Qed.

(** The round keeps every field a 64-bit value. *)
Lemma sipround_ok (s : CSipHash) : state_ok s -> state_ok (c_siphash_sipround s).
Proof.
  destruct s as [a b c d q n].
  unfold state_ok. cbn [v0 v1 v2 v3 padding n_bytes].
  intros (Ha & Hb & Hc & Hd & Hq & Hn).
  lazy beta iota zeta delta
    [c_siphash_sipround set_v0 set_v1 set_v2 set_v3 v0 v1 v2 v3
     padding n_bytes].
  repeat match goal with |- _ /\ _ => split end;
    solve [assumption | auto 10 with u64].
Qed.

#[local] Opaque c_siphash_sipround.

(** ** Bytes of a little-endian value *)

Lemma byte_at_cons_0 (b : byte) (v : Z) : byte_at (u8 b + 256 * v) 0 = u8 b.
Proof.
  unfold byte_at. cbn [Z.of_nat]. rewrite Z.mul_0_r, Z.pow_0_r, Z.div_1_r.
  pose proof (u8_range b) as Hb.
  replace (u8 b + 256 * v) with (u8 b + v * 256) by lia.
  rewrite Z_mod_plus_full.
  apply Z.mod_small. exact Hb.
Qed.

Lemma byte_at_cons_S (b : byte) (v : Z) (i : nat) :
  byte_at (u8 b + 256 * v) (S i) = byte_at v i.
Proof.
  unfold byte_at. pose proof (u8_range b) as Hb.
  replace (8 * Z.of_nat (S i)) with (8 + 8 * Z.of_nat i) by lia.
  rewrite Z.pow_add_r by lia.
  rewrite <- Z.div_div by (try apply Z.pow_pos_nonneg; lia).
  change (2 ^ 8) with 256.
  replace ((u8 b + 256 * v) / 256) with v; [reflexivity |].
  replace (u8 b + 256 * v) with (u8 b + v * 256) by lia.
  rewrite Z.div_add by lia.
  rewrite Z.div_small by exact Hb. lia.
Qed.

(** Byte position [i] of [le_value l] holds the [i]-th byte of [l], and
    nothing beyond the length of [l]. *)
Lemma byte_at_le_value (l : list byte) :
  forall i : nat,
    byte_at (le_value l) i
    = match nth_error l i with Some b => u8 b | None => 0 end.
Proof.
  induction l as [| b t IH]; intros i; cbn [le_value].
  - unfold byte_at. rewrite Z.div_0_l, Z.mod_0_l; [| lia |].
    + destruct i; reflexivity.
    + apply Z.pow_nonzero; lia.
  - destruct i as [| i]; cbn [nth_error].
    + apply byte_at_cons_0.
    + rewrite byte_at_cons_S. apply IH.
Qed.

Lemma trailing_last_bytes (l : list byte) :
  trailing l = last_bytes (length l mod 8) l.
Proof.
  unfold trailing, last_bytes, n_words. f_equal.
  pose proof (Nat.div_mod_eq (length l) 8). lia.
Qed.

Lemma length_last_bytes (r : nat) (l : list byte) :
  (r <= length l)%nat -> length (last_bytes r l) = r.
Proof. intros H. unfold last_bytes. rewrite length_skipn. lia. Qed.

(** ** The final block *)

Lemma shl64_low8 (x : Z) : shl64 x 56 = (x mod 2 ^ 8) * 2 ^ 56.
Proof.
  unfold shl64, wrap64. rewrite Z.shiftl_mul_pow2 by lia.
  change (2 ^ 64) with (2 ^ 8 * 2 ^ 56).
  apply Z.mul_mod_distr_r; lia.
Qed.

(** * The specified behaviour *)

Lemma test_seed_length : length test_seed = 16%nat.
Proof. reflexivity. Defined.

Lemma sample_state_ok : state_ok sample_state.
Proof. unfold state_ok, is_u64. cbn. lia. Defined.

(** C1. For a 16-byte seed and a buffer holding at least [n] bytes, the
    one-shot [c_siphash_hash] returns exactly the value that
    [c_siphash_init] on a fresh state, one [c_siphash_append] of the buffer
    and [c_siphash_finalize] produce; all three steps succeed, [n = 0]
    included. *)
Theorem hash_is_init_append_finalize (seed mem : buffer) (n : Z) :
  length seed = 16%nat -> 0 <= n <= zlen mem ->
  exists s0 s1,
    c_siphash_init seed = Some s0 /\
    c_siphash_append s0 mem n = Some s1 /\
    c_siphash_hash seed mem n = Some (snd (c_siphash_finalize s1)).
Proof.
  intros Hseed Hn.
  set (s0 := init_state (le_value (firstn 8 seed))
                        (le_value (firstn 8 (skipn 8 seed)))).
  exists s0, (append_spec s0 (firstn (Z.to_nat n) mem)).
  unfold c_siphash_hash.
  rewrite init_value by lia. cbn [bind]. fold s0.
  rewrite append_correct by exact Hn. cbn [bind].
  repeat split.
Qed.

Lemma hash_is_init_append_finalize_witness :
  exists s0 s1,
    c_siphash_init test_seed = Some s0 /\
    c_siphash_append s0 sample_bytes 0 = Some s1 /\
    c_siphash_hash test_seed sample_bytes 0
    = Some (snd (c_siphash_finalize s1)).
Proof.
  apply (hash_is_init_append_finalize test_seed sample_bytes 0).
  - reflexivity.
  - unfold zlen. simpl. lia.
Defined.

(** C2. For a 16-byte seed and every way of cutting a message into chunks
    (any number, any sizes, empty ones included), init, one append per
    chunk, then finalize yields the same hash as init, one append of the
    whole message, then finalize, which is the one-shot hash of the
    message. *)
Theorem streaming_equivalence (seed : buffer) (chunks : list (list byte)) :
  length seed = 16%nat ->
  exists h,
    hash_chunks seed chunks = Some h /\
    hash_chunks seed [concat chunks] = Some h /\
    c_siphash_hash seed (concat chunks) (zlen (concat chunks)) = Some h.
Proof.
  intros Hseed.
  unfold hash_chunks, c_siphash_hash.
  rewrite init_value by lia. cbn [bind].
  rewrite init_state_absorbed.
  rewrite !append_all_absorbed. cbn [bind].
  rewrite append_correct by (unfold zlen; lia). cbn [bind].
  rewrite firstn_zlen, append_spec_absorbed.
  cbn [concat]. rewrite app_nil_r.
  eexists. repeat split.
Qed.

Lemma streaming_equivalence_witness :
  exists h,
    hash_chunks test_seed [[x01; x02; x03]%byte; []; [x04]%byte] = Some h /\
    hash_chunks test_seed [concat [[x01; x02; x03]%byte; []; [x04]%byte]]
    = Some h /\
    c_siphash_hash test_seed (concat [[x01; x02; x03]%byte; []; [x04]%byte])
      (zlen (concat [[x01; x02; x03]%byte; []; [x04]%byte]))
    = Some h.
Proof.
  apply (streaming_equivalence test_seed
           [[x01; x02; x03]%byte; []; [x04]%byte]).
  reflexivity.
Defined.

(** C3. For every engine state, [c_siphash_finalize] forms the final block
    [padding | (n_bytes << 56)], in which only the low eight bits of the
    byte count survive, placed in the top byte above the 56 bits of the
    pending bytes; it then does [v3 ^= b], two rounds, [v0 ^= b],
    [v2 ^= 0xff], four more rounds, and returns [v0 ^ v1 ^ v2 ^ v3]. *)
Theorem finalize_final_block (s : CSipHash) :
  snd (c_siphash_finalize s) = finalize_spec s /\
  Z.lor (padding s) (shl64 (n_bytes s) 56) = final_block s /\
  (forall i, 0 <= i < 56 ->
     Z.testbit (final_block s) i = Z.testbit (padding s) i) /\
  (forall i, 56 <= i < 64 ->
     Z.testbit (final_block s) i
     = Z.testbit (padding s) i || Z.testbit (n_bytes s) (i - 56)).
Proof.
  split; [| split; [| split]].
  - unfold c_siphash_finalize. rewrite shl64_low8. reflexivity.
  - rewrite shl64_low8. reflexivity.
  - intros i Hi. unfold final_block.
    rewrite Z.lor_spec, Z.mul_pow2_bits_low by lia.
    apply orb_false_r.
  - intros i Hi. unfold final_block.
    rewrite Z.lor_spec, Z.mul_pow2_bits by lia.
    rewrite Z.mod_pow2_bits_low by lia. reflexivity.
Qed.

(** C4. For a 16-byte seed, [c_siphash_init] takes [k0] to be the
    little-endian word of seed bytes 0-7 and [k1] that of bytes 8-15, and
    leaves [v0 = 0x736f6d6570736575 ^ k0], [v1 = 0x646f72616e646f6d ^ k1],
    [v2 = 0x6c7967656e657261 ^ k0], [v3 = 0x7465646279746573 ^ k1],
    [padding = 0] and [n_bytes = 0]. *)
Theorem init_from_seed (seed : buffer) :
  length seed = 16%nat ->
  let k0 := le_value (firstn 8 seed) in
  let k1 := le_value (skipn 8 seed) in
  c_siphash_init seed
  = Some (mkCSipHash (Z.lxor 0x736f6d6570736575 k0)
                     (Z.lxor 0x646f72616e646f6d k1)
                     (Z.lxor 0x6c7967656e657261 k0)
                     (Z.lxor 0x7465646279746573 k1)
                     0 0).
Proof.
  intros Hseed k0 k1. rewrite init_value by lia.
  unfold init_state, k0, k1.
  rewrite (firstn_all2 (n := 8) (skipn 8 seed))
    by (rewrite length_skipn; lia).
  reflexivity.
Qed.

Lemma init_from_seed_witness :
  c_siphash_init test_seed
  = Some (mkCSipHash
            (Z.lxor 0x736f6d6570736575 (le_value (firstn 8 test_seed)))
            (Z.lxor 0x646f72616e646f6d (le_value (skipn 8 test_seed)))
            (Z.lxor 0x6c7967656e657261 (le_value (firstn 8 test_seed)))
            (Z.lxor 0x7465646279746573 (le_value (skipn 8 test_seed)))
            0 0).
Proof. apply (init_from_seed test_seed). reflexivity. Defined.

(** C5. On every state of 64-bit lanes, one call of [c_siphash_sipround]
    is the fourteen assignments of the round in their order, additions
    taken modulo [2^64] and rotations by 13, 32, 16, 21, 17 and 32
    positions; [padding] and [n_bytes] are not touched. *)
Theorem sipround_is_round (s : CSipHash) :
  state_ok s -> c_siphash_sipround s = round_spec s.
Proof. apply sipround_round_spec. Qed.

Lemma sipround_is_round_witness :
  c_siphash_sipround sample_state = round_spec sample_state.
Proof. apply (sipround_is_round sample_state). exact sample_state_ok. Defined.

Lemma append_zero_spec (s : CSipHash) :
  is_u64 (n_bytes s) -> append_spec s [] = s.
Proof.
  intros Hn. unfold append_spec.
  change (zlen []) with 0.
  rewrite Z.add_0_r, wrap64_small by exact Hn.
  assert (Hs : set_n_bytes s (n_bytes s) = s) by (destruct s; reflexivity).
  rewrite Hs.
  pose proof (Z.mod_pos_bound (n_bytes s) 8 ltac:(lia)) as Hr.
  destruct (Z.eqb_spec (n_bytes s mod 8) 0) as [_ | _].
  - unfold aligned_spec. cbn [n_words length Nat.div absorb_words trailing].
    change (trailing []) with (@nil byte). cbn [le_value].
    rewrite Z.lor_0_r. apply set_padding_same.
  - destruct (Z.ltb_spec 0 (8 - n_bytes s mod 8)) as [_ | H]; [| lia].
    cbn [le_value]. rewrite Z.shiftl_0_l, Z.lor_0_r.
    apply set_padding_same.
Qed.

(** C6. After [c_siphash_init] and after any sequence of
    [c_siphash_append] calls, [padding] holds exactly [n_bytes mod 8]
    bytes, the last ones appended, the [i]-th of them at byte position [i]
    (bits [8i .. 8i+7]) and zero at every byte position above; so an
    engine fed a multiple of 8 bytes reaches finalize with [padding = 0],
    and one fed [r] bytes more carries exactly the last [r] bytes. *)
Theorem pending_invariant (seed : buffer) (chunks : list (list byte)) :
  length seed = 16%nat ->
  exists s0 s,
    c_siphash_init seed = Some s0 /\
    append_all s0 chunks = Some s /\
    let msg := concat chunks in
    let r := (length msg mod 8)%nat in
    n_bytes s = wrap64 (zlen msg) /\
    n_bytes s mod 8 = Z.of_nat r /\
    length (last_bytes r msg) = r /\
    padding s = le_value (last_bytes r msg) /\
    (forall i b, nth_error (last_bytes r msg) i = Some b ->
                 byte_at (padding s) i = u8 b) /\
    (forall i, (r <= i)%nat -> byte_at (padding s) i = 0) /\
    (r = 0%nat -> padding s = 0).
Proof.
  intros Hseed.
  set (s0 := init_state (le_value (firstn 8 seed))
                        (le_value (firstn 8 (skipn 8 seed)))).
  exists s0, (absorbed s0 (concat chunks)).
  split; [apply init_value; lia |].
  split.
  { unfold s0 at 1. rewrite init_state_absorbed. fold s0.
    apply (append_all_absorbed s0 chunks []). }
  intros msg r. change (concat chunks) with msg.
  assert (Hr : (r < 8)%nat) by (apply Nat.mod_upper_bound; lia).
  assert (Hrl : (r <= length msg)%nat) by (apply Nat.Div0.mod_le).
  assert (Hlen : length (last_bytes r msg) = r)
    by (apply length_last_bytes; exact Hrl).
  assert (Hpad : padding (absorbed s0 msg) = le_value (last_bytes r msg)).
  { unfold absorbed. rewrite padding_holding, trailing_last_bytes.
    reflexivity. }
  repeat split.
  - unfold absorbed. rewrite n_bytes_holding, wrap64_mod8.
    unfold zlen, r. rewrite Nat2Z.inj_mod. reflexivity.
  - exact Hlen.
  - exact Hpad.
  - intros i b Hi. rewrite Hpad, byte_at_le_value, Hi. reflexivity.
  - intros i Hi. rewrite Hpad, byte_at_le_value.
    assert (E : nth_error (last_bytes r msg) i = None)
      by (apply nth_error_None; lia).
    rewrite E. reflexivity.
  - intros H0. rewrite Hpad.
    destruct (last_bytes r msg); [reflexivity |].
    cbn [length] in Hlen. lia.
Qed.

Lemma pending_invariant_witness :
  exists s0 s,
    c_siphash_init test_seed = Some s0 /\
    append_all s0 [sample_bytes; sample_bytes] = Some s /\
    let msg := concat [sample_bytes; sample_bytes] in
    let r := (length msg mod 8)%nat in
    n_bytes s = wrap64 (zlen msg) /\
    n_bytes s mod 8 = Z.of_nat r /\
    length (last_bytes r msg) = r /\
    padding s = le_value (last_bytes r msg) /\
    (forall i b, nth_error (last_bytes r msg) i = Some b ->
                 byte_at (padding s) i = u8 b) /\
    (forall i, (r <= i)%nat -> byte_at (padding s) i = 0) /\
    (r = 0%nat -> padding s = 0).
Proof.
  apply (pending_invariant test_seed [sample_bytes; sample_bytes]).
  reflexivity.
Defined.

(** C7. With the seed "0123456789abcdef" and an input of length 0, the
    hash is 12552310112479190712, by the one-shot call as by init, an
    append of length 0 on an absent buffer, then finalize; the assertion
    of [test_api] holds. *)
Theorem empty_input_hash :
  c_siphash_hash test_seed [] 0 = Some 12552310112479190712 /\
  hash_chunks test_seed [[]] = Some 12552310112479190712 /\
  test_api = Some true.
Proof. vm_compute. repeat split. Qed.

(** C8. For every seed, every length [n] and any two buffers with the same
    first [n] bytes, [c_siphash_hash] returns the same value for both, and
    [c_siphash_append] takes any state to the same state with both: bytes
    at positions [n] and beyond never influence the result. *)
Theorem bytes_beyond_length_ignored (seed mem1 mem2 : buffer) (n : Z) :
  0 <= n ->
  firstn (Z.to_nat n) mem1 = firstn (Z.to_nat n) mem2 ->
  c_siphash_hash seed mem1 n = c_siphash_hash seed mem2 n /\
  (forall s, c_siphash_append s mem1 n = c_siphash_append s mem2 n).
Proof.
  intros Hn Heq.
  assert (A : forall s, c_siphash_append s mem1 n = c_siphash_append s mem2 n).
  { intros s.
    destruct (Z.le_gt_cases n (zlen mem1)) as [Hle | Hgt].
    - assert (Hle2 : n <= zlen mem2).
      { apply (f_equal (@length byte)) in Heq.
        rewrite !length_firstn in Heq. unfold zlen in *. lia. }
      rewrite !append_correct by lia. rewrite Heq. reflexivity.
    - assert (E1 : firstn (Z.to_nat n) mem1 = mem1)
        by (apply firstn_all2; unfold zlen in Hgt; lia).
      assert (E2 : firstn (Z.to_nat n) mem2 = mem2).
      { apply firstn_all2.
        apply (f_equal (@length byte)) in Heq.
        rewrite !length_firstn in Heq. unfold zlen in *. lia. }
      rewrite E1, E2 in Heq. rewrite Heq. reflexivity. }
  split; [| exact A].
  unfold c_siphash_hash.
  destruct (c_siphash_init seed) as [s |]; [cbn [bind] | reflexivity].
  rewrite A. reflexivity.
Qed.

Lemma bytes_beyond_length_ignored_witness :
  c_siphash_hash test_seed sample_bytes 3
  = c_siphash_hash test_seed [x01; x02; x03; xff; xfe]%byte 3 /\
  (forall s, c_siphash_append s sample_bytes 3
             = c_siphash_append s [x01; x02; x03; xff; xfe]%byte 3).
Proof.
  apply (bytes_beyond_length_ignored test_seed sample_bytes
           [x01; x02; x03; xff; xfe]%byte 3).
  - lia.
  - reflexivity.
Defined.

(** C9. From every engine state, [c_siphash_append] with length 0, on an
    empty or absent buffer as on any other, returns without fault and
    leaves [v0], [v1], [v2], [v3], [padding] and [n_bytes] as they
    were. *)
Theorem append_nothing (s : CSipHash) (mem : buffer) :
  is_u64 (n_bytes s) -> c_siphash_append s mem 0 = Some s.
Proof.
  intros Hn. rewrite append_correct by (unfold zlen; lia).
  change (firstn (Z.to_nat 0) mem) with (@nil byte).
  rewrite append_zero_spec by exact Hn. reflexivity.
Qed.

Lemma append_nothing_witness :
  c_siphash_append sample_state [] 0 = Some sample_state.
Proof.
  apply (append_nothing sample_state []).
  unfold is_u64. simpl. lia.
Defined.

(** C10. When the buffer given to [c_siphash_append] holds [n] readable
    bytes, no read of the call falls outside [0, n): from every state the
    call succeeds, and it does so unchanged on the buffer cut down to
    exactly its first [n] bytes, where any read at an index of [n] or more
    would fault. *)
Theorem append_reads_in_bounds (s : CSipHash) (mem : buffer) (n : Z) :
  0 <= n <= zlen mem ->
  (forall p, load (firstn (Z.to_nat n) mem) p <> None <-> 0 <= p < n) /\
  (exists s', c_siphash_append s (firstn (Z.to_nat n) mem) n = Some s' /\
              c_siphash_append s mem n = Some s').
Proof.
  intros Hn.
  assert (Hlen : zlen (firstn (Z.to_nat n) mem) = n).
  { unfold zlen in *. rewrite length_firstn. lia. }
  split.
  - intros p. rewrite load_in_bounds, Hlen. reflexivity.
  - exists (append_spec s (firstn (Z.to_nat n) mem)).
    rewrite !append_correct by lia.
    rewrite firstn_firstn, Nat.min_id. split; reflexivity.
Qed.

Lemma append_reads_in_bounds_witness :
  (forall p, load (firstn (Z.to_nat 9) sample_bytes) p <> None <-> 0 <= p < 9) /\
  (exists s', c_siphash_append sample_state (firstn (Z.to_nat 9) sample_bytes) 9
              = Some s' /\
              c_siphash_append sample_state sample_bytes 9 = Some s').
Proof.
  apply (append_reads_in_bounds sample_state sample_bytes 9).
  unfold zlen. simpl. lia.
Defined.

(** * Further properties of the code *)

(** ** [c_siphash_read_le64] *)

(** [c_siphash_read_le64] faults exactly when one of the eight bytes at
    [bytes] lies outside the buffer. *)
Theorem read_le64_faults_outside (mem : buffer) (p : Z) :
  c_siphash_read_le64 mem p = None <-> p < 0 \/ zlen mem < p + 8.
Proof.
  split.
  - intros H.
    destruct (Z.lt_ge_cases p 0) as [Hneg | Hpos]; [left; exact Hneg |].
    destruct (Z.lt_ge_cases (zlen mem) (p + 8)) as [Hout | Hin];
      [right; exact Hout |].
    rewrite read_le64_value in H by lia. discriminate.
  - apply read_le64_fault.
Qed.

Lemma read_le64_some (mem : buffer) (p v : Z) :
  c_siphash_read_le64 mem p = Some v ->
  0 <= p /\ p + 8 <= zlen mem /\
  v = le_value (firstn 8 (skipn (Z.to_nat p) mem)).
Proof.
  intros H.
  destruct (Z.lt_ge_cases p 0) as [Hneg | Hpos].
  { rewrite read_le64_fault in H by (left; exact Hneg). discriminate. }
  destruct (Z.lt_ge_cases (zlen mem) (p + 8)) as [Hout | Hin].
  { rewrite read_le64_fault in H by (right; exact Hout). discriminate. }
  rewrite read_le64_value in H by lia.
  injection H as <-. repeat split; lia.
Qed.

(** The word [c_siphash_read_le64] returns is a 64-bit value whose byte at
    position [i] is the byte of the buffer at offset [bytes + i]: the eight
    bytes can be read back from the word. *)
Theorem read_le64_bytes (mem : buffer) (p v : Z) :
  c_siphash_read_le64 mem p = Some v ->
  is_u64 v /\
  forall i : nat, (i < 8)%nat -> load mem (p + Z.of_nat i) = Some (byte_at v i).
Proof.
  intros H. apply read_le64_some in H. destruct H as (Hp & Hlen & ->).
  set (w := firstn 8 (skipn (Z.to_nat p) mem)).
  assert (Hw : length w = 8%nat).
  { unfold w, zlen in *. rewrite length_firstn, length_skipn. lia. }
  split.
  - pose proof (le_value_range w) as R. unfold zlen in R. rewrite Hw in R.
    exact R.
  - intros i Hi.
    rewrite byte_at_le_value.
    destruct (nth_error w i) as [b |] eqn:E.
    + apply load_offset; [exact Hp |].
      unfold w in E. rewrite nth_error_firstn in E.
      destruct (Nat.ltb_spec i 8) as [_ | Hge]; [exact E | lia].
    + apply nth_error_None in E. lia.
Qed.

Lemma read_le64_bytes_witness :
  is_u64 0x0908070605040302 /\
  forall i : nat, (i < 8)%nat ->
    load sample_bytes (1 + Z.of_nat i) = Some (byte_at 0x0908070605040302 i).
Proof. apply (read_le64_bytes sample_bytes 1 0x0908070605040302). reflexivity. Defined.

(** ** [c_siphash_rotate_left] *)

Lemma rotate_left_testbit (x b i : Z) :
  is_u64 x -> 0 < b < 64 -> 0 <= i < 64 ->
  Z.testbit (c_siphash_rotate_left x b) i = Z.testbit x ((i - b) mod 64).
Proof.
  intros Hx Hb Hi.
  unfold c_siphash_rotate_left, shl64, shr64, wrap64.
  rewrite Z.lor_spec, Z.mod_pow2_bits_low by lia.
  rewrite Z.shiftl_spec, Z.shiftr_spec by lia.
  destruct (Z.lt_ge_cases i b) as [Hlow | Hhigh].
  - rewrite (Z.testbit_neg_r x (i - b)) by lia.
    replace ((i - b) mod 64) with (i + (64 - b)); [reflexivity |].
    apply Z.mod_unique with (q := -1); lia.
  - rewrite (testbit_high 64 x (i + (64 - b))) by (unfold is_u64 in Hx; lia).
    rewrite Z.mod_small by lia. apply orb_false_r.
Qed.

(** On a 64-bit value and for a shift strictly between 0 and 64, the
    shift-and-or of [c_siphash_rotate_left] is a rotation: the result is a
    64-bit value whose bit [i] is bit [i - b] modulo 64 of the operand. *)
Theorem rotate_left_is_rotation (x b : Z) :
  is_u64 x -> 0 < b < 64 ->
  is_u64 (c_siphash_rotate_left x b) /\
  forall i, 0 <= i < 64 ->
    Z.testbit (c_siphash_rotate_left x b) i = rotl64_bit x b i.
Proof.
  intros Hx Hb. split.
  - apply rotate_left_range; [exact Hx | lia].
  - intros i Hi. apply rotate_left_testbit; assumption.
Qed.

Lemma rotate_left_is_rotation_witness :
  is_u64 (c_siphash_rotate_left 0x8000000000000001 13) /\
  forall i, 0 <= i < 64 ->
    Z.testbit (c_siphash_rotate_left 0x8000000000000001 13) i
    = rotl64_bit 0x8000000000000001 13 i.
Proof.
  apply (rotate_left_is_rotation 0x8000000000000001 13).
  - unfold is_u64. simpl. lia.
  - lia.
Defined.

Lemma rotate_left_back (x b : Z) :
  is_u64 x -> 0 < b < 64 ->
  c_siphash_rotate_left (c_siphash_rotate_left x b) (64 - b) = x.
Proof.
  intros Hx Hb.
  assert (Hr : is_u64 (c_siphash_rotate_left x b))
    by (apply rotate_left_range; [exact Hx | lia]).
  assert (Hrr : is_u64 (c_siphash_rotate_left
                          (c_siphash_rotate_left x b) (64 - b)))
    by (apply rotate_left_range; [exact Hr | lia]).
  apply Z.bits_inj'. intros i Hi.
  destruct (Z.lt_ge_cases i 64) as [Hlt | Hge].
  - rewrite rotate_left_testbit by (try assumption; lia).
    rewrite rotate_left_testbit;
      [| exact Hx | exact Hb | apply Z.mod_pos_bound; lia].
    f_equal.
    rewrite Zminus_mod_idemp_l.
    replace (i - (64 - b) - b) with (i + (-1) * 64) by lia.
    rewrite Z_mod_plus_full. apply Z.mod_small. lia.
  - unfold is_u64 in *.
    rewrite (testbit_high 64 _ i), (testbit_high 64 x i) by lia.
    reflexivity.
Qed.

(** Rotations lose nothing: rotating by [b] and then by [64 - b] gives the
    operand back, so two operands rotated by the same amount to the same
    word are equal. In particular the two rotations by 32 of the round undo
    each other. *)
Theorem rotate_left_injective (x y b : Z) :
  is_u64 x -> is_u64 y -> 0 < b < 64 ->
  c_siphash_rotate_left (c_siphash_rotate_left x b) (64 - b) = x /\
  (c_siphash_rotate_left x b = c_siphash_rotate_left y b -> x = y).
Proof.
  intros Hx Hy Hb. split.
  - apply rotate_left_back; assumption.
  - intros E.
    rewrite <- (rotate_left_back x b), <- (rotate_left_back y b), E
      by assumption.
    reflexivity.
Qed.

Lemma rotate_left_injective_witness :
  c_siphash_rotate_left (c_siphash_rotate_left 5 32) (64 - 32) = 5 /\
  (c_siphash_rotate_left 5 32 = c_siphash_rotate_left 5 32 -> 5 = 5).
Proof.
  apply (rotate_left_injective 5 5 32).
  - unfold is_u64. simpl. lia.
  - unfold is_u64. simpl. lia.
  - lia.
Defined.

(** ** [c_siphash_sipround] *)

(** The round keeps every field a 64-bit value and does not touch
    [padding] or [n_bytes]. *)
Theorem sipround_keeps_state (s : CSipHash) :
  state_ok s ->
  state_ok (c_siphash_sipround s) /\
  padding (c_siphash_sipround s) = padding s /\
  n_bytes (c_siphash_sipround s) = n_bytes s.
Proof.
  intros H. split; [apply sipround_ok; exact H |].
  split; [apply sipround_padding | apply sipround_n_bytes].
Qed.

Lemma sipround_keeps_state_witness :
  state_ok (c_siphash_sipround sample_state) /\
  padding (c_siphash_sipround sample_state) = padding sample_state /\
  n_bytes (c_siphash_sipround sample_state) = n_bytes sample_state.
Proof. apply (sipround_keeps_state sample_state). exact sample_state_ok. Defined.

Lemma lxor_cancel_r (x y z : Z) : Z.lxor x z = Z.lxor y z -> x = y.
Proof.
  intros E. apply (f_equal (fun t => Z.lxor t z)) in E.
  rewrite !Z.lxor_assoc, Z.lxor_nilpotent, !Z.lxor_0_r in E. exact E.
Qed.

Lemma add64_cancel_r (x y z : Z) :
  is_u64 x -> is_u64 y -> add64 x z = add64 y z -> x = y.
Proof.
  unfold is_u64, add64, wrap64.
  change (2 ^ 64) with 18446744073709551616.
  intros Hx Hy E.
  pose proof (Z.div_mod (x + z) 18446744073709551616 ltac:(lia)) as D1.
  pose proof (Z.div_mod (y + z) 18446744073709551616 ltac:(lia)) as D2.
  rewrite E in D1. lia.
Qed.

Lemma rotate_left_inj (x y b : Z) :
  is_u64 x -> is_u64 y -> 0 < b < 64 ->
  c_siphash_rotate_left x b = c_siphash_rotate_left y b -> x = y.
Proof.
  intros Hx Hy Hb E.
  rewrite <- (rotate_left_back x b), <- (rotate_left_back y b), E
    by assumption.
  reflexivity.
Qed.

(** Closes a goal [is_u64 e] for [e] built from 64-bit values with the
    operations of the round. *)
Ltac solve_u64 :=
  repeat first
    [ assumption
    | apply add64_u64
    | apply lxor_u64
    | apply rotate_left_u64; [| lia] ].

#[local] Transparent c_siphash_sipround.

(** The round is injective on states of 64-bit lanes: two different
    states are never mixed to the same state. *)
Theorem sipround_injective (s t : CSipHash) :
  state_ok s -> state_ok t ->
  c_siphash_sipround s = c_siphash_sipround t -> s = t.
Proof.
  destruct s as [a b c d q n], t as [a' b' c' d' q' n'].
  unfold state_ok. cbn [v0 v1 v2 v3 padding n_bytes].
  intros (Ha & Hb & Hc & Hd & _ & _) (Ha' & Hb' & Hc' & Hd' & _ & _).
  lazy beta iota zeta delta
    [c_siphash_sipround set_v0 set_v1 set_v2 set_v3 v0 v1 v2 v3
     padding n_bytes].
  set (a1 := add64 a b). set (a1' := add64 a' b').
  set (b2 := Z.lxor (c_siphash_rotate_left b 13) a1).
  set (b2' := Z.lxor (c_siphash_rotate_left b' 13) a1').
  set (a2 := c_siphash_rotate_left a1 32).
  set (a2' := c_siphash_rotate_left a1' 32).
  set (c1 := add64 c d). set (c1' := add64 c' d').
  set (d2 := Z.lxor (c_siphash_rotate_left d 16) c1).
  set (d2' := Z.lxor (c_siphash_rotate_left d' 16) c1').
  set (a3 := add64 a2 d2). set (a3' := add64 a2' d2').
  set (c2 := add64 c1 b2). set (c2' := add64 c1' b2').
  intros E. injection E as Ea3 Eb4 Ec3 Ed4 Eq En.
  assert (Ua1 : is_u64 a1) by apply add64_u64.
  assert (Ua1' : is_u64 a1') by apply add64_u64.
  assert (Uc1 : is_u64 c1) by apply add64_u64.
  assert (Uc1' : is_u64 c1') by apply add64_u64.
  assert (Uc2 : is_u64 c2) by apply add64_u64.
  assert (Uc2' : is_u64 c2') by apply add64_u64.
  assert (Ub2 : is_u64 b2) by (unfold b2; solve_u64).
  assert (Ub2' : is_u64 b2') by (unfold b2'; solve_u64).
  assert (Ud2 : is_u64 d2) by (unfold d2; solve_u64).
  assert (Ud2' : is_u64 d2') by (unfold d2'; solve_u64).
  assert (Ua2 : is_u64 a2) by (unfold a2; solve_u64).
  assert (Ua2' : is_u64 a2') by (unfold a2'; solve_u64).
  assert (C2 : c2 = c2')
    by (apply (rotate_left_inj c2 c2' 32); assumption || lia).
  assert (B2 : b2 = b2').
  { rewrite C2 in Eb4. apply lxor_cancel_r in Eb4.
    apply (rotate_left_inj b2 b2' 17); assumption || lia. }
  assert (D2 : d2 = d2').
  { rewrite Ea3 in Ed4. apply lxor_cancel_r in Ed4.
    apply (rotate_left_inj d2 d2' 21); assumption || lia. }
  assert (A2 : a2 = a2').
  { unfold a3, a3' in Ea3. rewrite D2 in Ea3.
    apply (add64_cancel_r a2 a2' d2'); assumption. }
  assert (A1 : a1 = a1')
    by (apply (rotate_left_inj a1 a1' 32); assumption || lia).
  assert (C1 : c1 = c1').
  { unfold c2, c2' in C2. rewrite B2 in C2.
    apply (add64_cancel_r c1 c1' b2'); assumption. }
  assert (D : d = d').
  { unfold d2, d2' in D2. rewrite C1 in D2. apply lxor_cancel_r in D2.
    apply (rotate_left_inj d d' 16); assumption || lia. }
  assert (B : b = b').
  { unfold b2, b2' in B2. rewrite A1 in B2. apply lxor_cancel_r in B2.
    apply (rotate_left_inj b b' 13); assumption || lia. }
  assert (A : a = a').
  { unfold a1, a1' in A1. rewrite B in A1.
    apply (add64_cancel_r a a' b'); assumption. }
  assert (C : c = c').
  { unfold c1, c1' in C1. rewrite D in C1.
    apply (add64_cancel_r c c' d'); assumption. }
  subst. reflexivity.
Qed.

#[local] Opaque c_siphash_sipround.

Lemma sipround_injective_witness : sample_state = mkCSipHash 1 2 3 4 0 0.
Proof.
  apply (sipround_injective sample_state (mkCSipHash 1 2 3 4 0 0)).
  - exact sample_state_ok.
  - exact sample_state_ok.
  - reflexivity.
Defined.

(** ** [c_siphash_append]: what it keeps and what it counts *)

Lemma mix_ok (s : CSipHash) (m : Z) :
  state_ok s -> is_u64 m -> state_ok (mix s m).
Proof.
  intros Hs Hm. unfold mix. cbv beta zeta.
  assert (H1 : state_ok (set_v3 s (Z.lxor (v3 s) m))).
  { destruct s as [a b c d q n]. unfold state_ok in *.
    cbn [set_v3 v0 v1 v2 v3 padding n_bytes] in *.
    intuition auto with u64. }
  apply sipround_ok in H1. apply sipround_ok in H1.
  set (s2 := c_siphash_sipround
               (c_siphash_sipround (set_v3 s (Z.lxor (v3 s) m)))) in *.
  destruct s2 as [a b c d q n]. unfold state_ok in *.
  cbn [set_v0 v0 v1 v2 v3 padding n_bytes] in *.
  intuition auto with u64.
Qed.

Lemma le_value_u64 (l : list byte) : (length l <= 8)%nat -> is_u64 (le_value l).
Proof.
  intros H. pose proof (le_value_range l) as R. unfold is_u64, zlen in *.
  split; [lia |].
  apply Z.lt_le_trans with (2 ^ (8 * Z.of_nat (length l))); [lia |].
  apply Z.pow_le_mono_r; lia.
Qed.

Lemma absorb_words_ok (k : nat) :
  forall (s : CSipHash) (l : list byte),
    state_ok s -> state_ok (absorb_words k s l).
Proof.
  induction k as [| k IH]; intros s l Hs; cbn [absorb_words].
  - exact Hs.
  - apply IH, mix_ok; [exact Hs |].
    apply le_value_u64. rewrite length_firstn. lia.
Qed.

Lemma set_padding_ok (s : CSipHash) (x : Z) :
  state_ok s -> is_u64 x -> state_ok (set_padding s x).
Proof.
  destruct s as [a b c d q n]. unfold state_ok.
  cbn [set_padding v0 v1 v2 v3 padding n_bytes]. tauto.
Qed.

Lemma set_n_bytes_ok (s : CSipHash) (x : Z) :
  state_ok s -> is_u64 x -> state_ok (set_n_bytes s x).
Proof.
  destruct s as [a b c d q n]. unfold state_ok.
  cbn [set_n_bytes v0 v1 v2 v3 padding n_bytes]. tauto.
Qed.

Lemma state_ok_padding (s : CSipHash) : state_ok s -> is_u64 (padding s).
Proof. unfold state_ok. tauto. Qed.

Lemma aligned_spec_ok (s : CSipHash) (data : list byte) :
  state_ok s -> state_ok (aligned_spec s data).
Proof.
  intros Hs. unfold aligned_spec. cbv zeta.
  pose proof (absorb_words_ok (n_words data) s data Hs) as Hw.
  apply set_padding_ok; [exact Hw |].
  apply lor_u64; [apply state_ok_padding; exact Hw |].
  apply le_value_u64. rewrite length_trailing.
  pose proof (Nat.mod_upper_bound (length data) 8). lia.
Qed.

Lemma aligned_spec_n_bytes (s : CSipHash) (data : list byte) :
  n_bytes (aligned_spec s data) = n_bytes s.
Proof.
  unfold aligned_spec. cbv zeta.
  rewrite n_bytes_set_padding. apply absorb_words_n_bytes.
Qed.

(** A byte string of [k] bytes shifted up by [r] byte positions still fits
    in a word when [r + k <= 8]. *)
Lemma shifted_le_value_u64 (l : list byte) (r : Z) :
  0 <= r -> r + zlen l <= 8 -> is_u64 (Z.shiftl (le_value l) (8 * r)).
Proof.
  intros Hr Hl. pose proof (le_value_range l) as R.
  unfold is_u64, zlen in *.
  rewrite Z.shiftl_mul_pow2 by lia.
  assert (Hp : 0 < 2 ^ (8 * r)) by (apply Z.pow_pos_nonneg; lia).
  split; [nia |].
  apply Z.lt_le_trans
    with (2 ^ (8 * Z.of_nat (length l)) * 2 ^ (8 * r)); [nia |].
  rewrite <- Z.pow_add_r by lia.
  apply Z.pow_le_mono_r; lia.
Qed.

Lemma append_spec_ok (s : CSipHash) (data : list byte) :
  state_ok s -> state_ok (append_spec s data).
Proof.
  intros Hs. unfold append_spec. cbv zeta.
  pose proof (Z.mod_pos_bound (n_bytes s) 8 ltac:(lia)) as Hr.
  assert (Hs1 : state_ok (set_n_bytes s (wrap64 (n_bytes s + zlen data))))
    by (apply set_n_bytes_ok; [exact Hs | apply wrap64_range]).
  destruct (Z.eqb_spec (n_bytes s mod 8) 0) as [_ | _].
  - apply aligned_spec_ok. exact Hs1.
  - destruct (Z.ltb_spec (zlen data) (8 - n_bytes s mod 8)) as [Hshort | Hfill].
    + apply set_padding_ok; [exact Hs1 |].
      apply lor_u64; [apply state_ok_padding; exact Hs |].
      apply shifted_le_value_u64; lia.
    + apply aligned_spec_ok, set_padding_ok; [| unfold is_u64; lia].
      apply mix_ok; [exact Hs1 |].
      apply lor_u64; [apply state_ok_padding; exact Hs |].
      apply shifted_le_value_u64; [lia |].
      unfold zlen in *. rewrite length_firstn. lia.
Qed.

Lemma append_spec_n_bytes (s : CSipHash) (data : list byte) :
  n_bytes (append_spec s data) = wrap64 (n_bytes s + zlen data).
Proof.
  unfold append_spec. cbv zeta.
  destruct (n_bytes s mod 8 =? 0).
  - rewrite aligned_spec_n_bytes. reflexivity.
  - destruct (zlen data <? 8 - n_bytes s mod 8).
    + reflexivity.
    + rewrite aligned_spec_n_bytes. autorewrite with fields. reflexivity.
Qed.

(** On a buffer holding [n] bytes, [c_siphash_append] succeeds from every
    state of 64-bit fields, leaves a state of 64-bit fields, and on every
    path, the early return included, has added [n] to the byte count
    modulo [2^64]. *)
Theorem append_counts_bytes (s : CSipHash) (mem : buffer) (n : Z) :
  state_ok s -> 0 <= n <= zlen mem ->
  exists s',
    c_siphash_append s mem n = Some s' /\
    state_ok s' /\
    n_bytes s' = wrap64 (n_bytes s + n).
Proof.
  intros Hs Hn.
  exists (append_spec s (firstn (Z.to_nat n) mem)).
  split; [apply append_correct; exact Hn |].
  split; [apply append_spec_ok; exact Hs |].
  rewrite append_spec_n_bytes. do 2 f_equal.
  unfold zlen in *. rewrite length_firstn. lia.
Qed.

Lemma append_counts_bytes_witness :
  exists s',
    c_siphash_append sample_state sample_bytes 9 = Some s' /\
    state_ok s' /\
    n_bytes s' = wrap64 (n_bytes sample_state + 9).
Proof.
  apply (append_counts_bytes sample_state sample_bytes 9).
  - exact sample_state_ok.
  - unfold zlen. simpl. lia.
Defined.

(** Bytes that do not complete a 64-bit word are only stored: when the
    bytes already pending and the [n] new ones are fewer than eight, the
    four lanes are unchanged and the new bytes are or-ed into [padding]
    above the pending ones. *)
Theorem append_short_only_buffers (s : CSipHash) (mem : buffer) (n : Z) :
  0 <= n <= zlen mem -> n_bytes s mod 8 + n < 8 ->
  exists s',
    c_siphash_append s mem n = Some s' /\
    v0 s' = v0 s /\ v1 s' = v1 s /\ v2 s' = v2 s /\ v3 s' = v3 s /\
    padding s'
    = Z.lor (padding s)
        (Z.shiftl (le_value (firstn (Z.to_nat n) mem)) (8 * (n_bytes s mod 8))).
Proof.
  intros Hn Hshort.
  exists (append_spec s (firstn (Z.to_nat n) mem)).
  split; [apply append_correct; exact Hn |].
  set (data := firstn (Z.to_nat n) mem).
  assert (Hdata : zlen data = n).
  { unfold data, zlen in *. rewrite length_firstn. lia. }
  pose proof (Z.mod_pos_bound (n_bytes s) 8 ltac:(lia)) as Hr.
  unfold append_spec. cbv zeta. rewrite Hdata.
  destruct (Z.eqb_spec (n_bytes s mod 8) 0) as [H0 | Hnz].
  - rewrite H0. unfold aligned_spec.
    assert (Hl : (length data < 8)%nat) by (unfold zlen in Hdata; lia).
    rewrite n_words_short, trailing_short by exact Hl.
    cbn [absorb_words]. rewrite Z.shiftl_0_r.
    repeat split.
  - destruct (Z.ltb_spec n (8 - n_bytes s mod 8)) as [_ | H]; [| lia].
    repeat split.
Qed.

Lemma append_short_only_buffers_witness :
  exists s',
    c_siphash_append sample_state sample_bytes 3 = Some s' /\
    v0 s' = v0 sample_state /\ v1 s' = v1 sample_state /\
    v2 s' = v2 sample_state /\ v3 s' = v3 sample_state /\
    padding s'
    = Z.lor (padding sample_state)
        (Z.shiftl (le_value (firstn (Z.to_nat 3) sample_bytes))
                  (8 * (n_bytes sample_state mod 8))).
Proof.
  apply (append_short_only_buffers sample_state sample_bytes 3).
  - unfold zlen. simpl. lia.
  - simpl. lia.
Defined.

(** ** [c_siphash_append] on a buffer that is too short *)

Lemma load_outside (mem : buffer) (p : Z) : zlen mem <= p -> load mem p = None.
Proof.
  intros H. destruct (load mem p) eqn:E; [| reflexivity].
  assert (B : 0 <= p < zlen mem) by (apply load_in_bounds; congruence).
  lia.
Qed.

Lemma load_inside (mem : buffer) (p : Z) :
  0 <= p < zlen mem -> exists b, load mem p = Some b.
Proof.
  intros H. apply load_in_bounds in H.
  destruct (load mem p) as [b |]; [exists b; reflexivity | congruence].
Qed.

(** The byte loop faults when it has more steps to run than bytes are left
    in the buffer. *)
Lemma append_drain_fault (mem : buffer) (end_ : Z) (j : nat) :
  forall (s : CSipHash) (p left_ : Z),
    0 <= p <= zlen mem ->
    Z.of_nat j = Z.min (end_ - p) (8 - left_) ->
    zlen mem < p + Z.of_nat j ->
    append_drain s mem p end_ left_ = None.
Proof.
  induction j as [| j IH]; intros s p left_ Hp Hj Hout; [lia |].
  rewrite append_drain_step.
  destruct (Z_lt_dec p end_) as [_ | H]; [| lia].
  destruct (Z_lt_dec left_ 8) as [_ | H]; [| lia].
  destruct (Z.eq_dec p (zlen mem)) as [E | NE].
  - rewrite load_outside by lia. reflexivity.
  - destruct (load_inside mem p ltac:(lia)) as [b ->]. cbn [bind].
    apply IH; lia.
Qed.

(** The word loop faults when its bound lies beyond the buffer. *)
Lemma append_words_fault (mem : buffer) (k : nat) :
  forall (s : CSipHash) (p : Z),
    0 <= p <= zlen mem ->
    zlen mem < p + 8 * Z.of_nat k ->
    append_words s mem p (p + 8 * Z.of_nat k) = None.
Proof.
  induction k as [| k IH]; intros s p Hp Hout; [lia |].
  rewrite append_words_step.
  destruct (Z_lt_dec p (p + 8 * Z.of_nat (S k))) as [_ | H]; [| lia].
  destruct (Z.lt_ge_cases (zlen mem) (p + 8)) as [Hshort | Hlong].
  - rewrite read_le64_fault by (right; exact Hshort). reflexivity.
  - rewrite read_le64_value by lia. cbn [bind].
    replace (p + 8 * Z.of_nat (S k)) with (p + 8 + 8 * Z.of_nat k) by lia.
    apply IH; lia.
Qed.

(** The switch reads its highest byte first, and faults if that one is
    beyond the buffer. *)
Lemma append_switch_fault (mem : buffer) (s : CSipHash) (p left_ : Z) :
  1 <= left_ <= 7 -> zlen mem < p + left_ ->
  append_switch s mem p left_ = None.
Proof.
  intros Hl Hout.
  assert (C : left_ = 1 \/ left_ = 2 \/ left_ = 3 \/ left_ = 4 \/
              left_ = 5 \/ left_ = 6 \/ left_ = 7) by lia.
  destruct C as [-> | [-> | [-> | [-> | [-> | [-> | ->]]]]]];
    cbn [append_switch];
    unfold append_case7, append_case6, append_case5, append_case4,
      append_case3, append_case2, append_case1, append_or_byte;
    rewrite load_outside by lia; reflexivity.
Qed.

Lemma append_aligned_fault (mem : buffer) (s : CSipHash) (p e : Z) :
  0 <= p <= e -> p <= zlen mem -> zlen mem < e ->
  (e - p) mod 8 = n_bytes s mod 8 ->
  append_aligned s mem p e = None.
Proof.
  intros Hp Hin Hout Hmod. unfold append_aligned.
  set (r := n_bytes s mod 8) in *.
  assert (Hr : 0 <= r < 8) by (apply Z.mod_pos_bound; lia).
  set (k := Z.to_nat ((e - p) / 8)).
  assert (Hk : e - p = 8 * Z.of_nat k + r).
  { unfold k. rewrite Z2Nat.id by (apply Z.div_pos; lia).
    rewrite <- Hmod. apply Z.div_mod. lia. }
  replace (e - r) with (p + 8 * Z.of_nat k) by lia.
  destruct (Z.lt_ge_cases (zlen mem) (p + 8 * Z.of_nat k)) as [Hw | Hw].
  - rewrite append_words_fault by lia. reflexivity.
  - rewrite append_words_spec by lia.
    cbn [bind]. cbv beta iota zeta.
    rewrite land_7, absorb_words_n_bytes. fold r.
    apply append_switch_fault; lia.
Qed.

Lemma append_fault (s : CSipHash) (mem : buffer) (n : Z) :
  zlen mem < n -> c_siphash_append s mem n = None.
Proof.
  intros Hout.
  assert (Hz : 0 <= zlen mem) by (unfold zlen; lia).
  unfold c_siphash_append.
  rewrite land_7. unfold add64.
  set (r := n_bytes s mod 8).
  assert (Hr : 0 <= r < 8) by (apply Z.mod_pos_bound; lia).
  set (s1 := set_n_bytes s (wrap64 (n_bytes s + n))).
  assert (Hs1 : n_bytes s1 mod 8 = (r + n) mod 8).
  { unfold s1. rewrite n_bytes_set_n_bytes, wrap64_mod8.
    unfold r. rewrite Zplus_mod_idemp_l. reflexivity. }
  cbv zeta.
  destruct (Z.ltb_spec 0 r) as [Hpos | Hzero].
  - set (j := Z.to_nat (Z.min n (8 - r))).
    destruct (Z.lt_ge_cases (zlen mem) (Z.of_nat j)) as [Hd | Hd].
    + rewrite (append_drain_fault mem (0 + n) j) by lia. reflexivity.
    + rewrite (append_drain_spec mem (0 + n) j) by lia.
      cbn [bind]. cbv beta iota.
      assert (Hj : Z.of_nat j = 8 - r) by lia.
      rewrite Hj.
      replace (r + (8 - r)) with 8 by lia.
      rewrite andb_false_r.
      apply append_aligned_fault; try lia.
      autorewrite with fields. fold s1. rewrite Hs1.
      replace (0 + n - (0 + (8 - r))) with (r + n + (-1) * 8) by lia.
      apply Z_mod_plus_full.
  - apply append_aligned_fault; try lia.
    fold s1. rewrite Hs1. f_equal. lia.
Qed.



(** ** [c_siphash_init], [c_siphash_finalize] and [c_siphash_hash] on their
    whole domain *)

Lemma init_state_ok (k0 k1 : Z) :
  is_u64 k0 -> is_u64 k1 -> state_ok (init_state k0 k1).
Proof.
  intros H0 H1. unfold init_state, state_ok.
  cbn [v0 v1 v2 v3 padding n_bytes].
  repeat match goal with |- _ /\ _ => split end;
    try (apply lxor_u64; [unfold is_u64; lia | assumption]);
    unfold is_u64; lia.
Qed.

Lemma init_fault (seed : buffer) :
  (length seed < 16)%nat -> c_siphash_init seed = None.
Proof.
  intros H. unfold c_siphash_init.
  destruct (Z.lt_ge_cases (zlen seed) 8) as [H8 | H8].
  - rewrite read_le64_fault by (right; lia). reflexivity.
  - rewrite read_le64_value by lia. cbn [bind].
    rewrite read_le64_fault by (right; unfold zlen; lia). reflexivity.
Qed.

(** [c_siphash_init] reads sixteen bytes: it faults exactly when the seed
    buffer holds fewer, and otherwise leaves a state of 64-bit fields. *)
Theorem init_faults_iff_short (seed : buffer) :
  (c_siphash_init seed = None <-> (length seed < 16)%nat) /\
  (forall s, c_siphash_init seed = Some s -> state_ok s).
Proof.
  split; [split |].
  - intros H.
    destruct (Nat.lt_ge_cases (length seed) 16) as [Hlt | Hge]; [exact Hlt |].
    rewrite init_value in H by exact Hge. discriminate.
  - apply init_fault.
  - intros s H.
    destruct (Nat.lt_ge_cases (length seed) 16) as [Hlt | Hge].
    + rewrite init_fault in H by exact Hlt. discriminate.
    + rewrite init_value in H by exact Hge.
      assert (E : s = init_state (le_value (firstn 8 seed))
                                 (le_value (firstn 8 (skipn 8 seed))))
        by congruence.
      rewrite E.
      apply init_state_ok; apply le_value_u64;
        rewrite length_firstn; lia.
Qed.

Lemma finalize_eq_spec (s : CSipHash) :
  snd (c_siphash_finalize s) = finalize_spec s.
Proof. unfold c_siphash_finalize. rewrite shl64_low8. reflexivity. Qed.

Lemma final_block_u64 (s : CSipHash) : state_ok s -> is_u64 (final_block s).
Proof.
  intros Hs. unfold final_block.
  apply lor_u64; [apply state_ok_padding; exact Hs |].
  pose proof (Z.mod_pos_bound (n_bytes s) (2 ^ 8) ltac:(lia)) as Hm.
  unfold is_u64. change (2 ^ 64) with (2 ^ 8 * 2 ^ 56). nia.
Qed.

Lemma lanes_xor_u64 (s : CSipHash) :
  state_ok s ->
  is_u64 (Z.lxor (Z.lxor (Z.lxor (v0 s) (v1 s)) (v2 s)) (v3 s)).
Proof.
  unfold state_ok. intros (H0 & H1 & H2 & H3 & _).
  auto with u64.
Qed.

Lemma set_v2_ok (s : CSipHash) (x : Z) :
  state_ok s -> is_u64 x -> state_ok (set_v2 s x).
Proof.
  destruct s as [a b c d q n]. unfold state_ok.
  cbn [set_v2 v0 v1 v2 v3 padding n_bytes]. tauto.
Qed.

Lemma finalize_spec_u64 (s : CSipHash) : state_ok s -> is_u64 (finalize_spec s).
Proof.
  intros Hs. unfold finalize_spec. cbv zeta.
  pose proof (mix_ok s (final_block s) Hs (final_block_u64 s Hs)) as H1.
  set (s1 := mix s (final_block s)) in *.
  assert (H2 : state_ok (set_v2 s1 (Z.lxor (v2 s1) 255))).
  { apply set_v2_ok; [exact H1 |].
    apply lxor_u64; [unfold state_ok in H1; tauto | unfold is_u64; lia]. }
  set (s2 := set_v2 s1 (Z.lxor (v2 s1) 255)) in *.
  apply lanes_xor_u64. cbn [Nat.iter nat_rect].
  do 4 apply sipround_ok. exact H2.
Qed.

(** For a length [n >= 0], [c_siphash_hash] faults exactly when the seed
    holds fewer than sixteen bytes or the buffer fewer than [n]; otherwise
    it returns a 64-bit value. *)
Theorem hash_defined_iff (seed mem : buffer) (n : Z) :
  0 <= n ->
  (c_siphash_hash seed mem n = None
   <-> (length seed < 16)%nat \/ zlen mem < n) /\
  (forall h, c_siphash_hash seed mem n = Some h -> is_u64 h).
Proof.
  intros Hn. unfold c_siphash_hash.
  destruct (Nat.lt_ge_cases (length seed) 16) as [Hlt | Hge].
  { rewrite init_fault by exact Hlt. cbn [bind].
    split; [split; [left; exact Hlt | reflexivity] | discriminate]. }
  rewrite init_value by exact Hge. cbn [bind].
  set (s0 := init_state _ _).
  assert (Hs0 : state_ok s0).
  { apply init_state_ok; apply le_value_u64; rewrite length_firstn; lia. }
  destruct (Z.lt_ge_cases (zlen mem) n) as [Hshort | Hlong].
  { rewrite append_fault by exact Hshort. cbn [bind].
    split; [split; [right; exact Hshort | reflexivity] | discriminate]. }
  rewrite append_correct by lia. cbn [bind].
  split; [split; [discriminate | lia] |].
  intros h H.
  assert (E : snd (c_siphash_finalize
                     (append_spec s0 (firstn (Z.to_nat n) mem))) = h)
    by congruence.
  rewrite <- E, finalize_eq_spec.
  apply finalize_spec_u64, append_spec_ok, Hs0.
Qed.

Lemma hash_defined_iff_witness :
  (c_siphash_hash test_seed sample_bytes 9 = None
   <-> (length test_seed < 16)%nat \/ zlen sample_bytes < 9) /\
  (forall h, c_siphash_hash test_seed sample_bytes 9 = Some h -> is_u64 h).
Proof. apply (hash_defined_iff test_seed sample_bytes 9). lia. Defined.

(** The hash in closed form: for a 16-byte seed and a message [msg], the
    lanes start from the key words, every complete 8-byte word of [msg] is
    mixed in order as a little-endian number, and finalization runs on the
    trailing [length msg mod 8] bytes and the length. *)
Theorem hash_closed_form (seed msg : buffer) :
  length seed = 16%nat ->
  c_siphash_hash seed msg (zlen msg)
  = Some (finalize_spec
            (absorbed (init_state (le_value (firstn 8 seed))
                                  (le_value (skipn 8 seed)))
                      msg)).
Proof.
  intros Hseed. unfold c_siphash_hash.
  rewrite init_value by lia. cbn [bind].
  rewrite (firstn_all2 (n := 8) (skipn 8 seed))
    by (rewrite length_skipn; lia).
  rewrite append_correct by (unfold zlen; lia). cbn [bind].
  rewrite firstn_zlen, finalize_eq_spec.
  rewrite init_state_absorbed, append_spec_absorbed.
  reflexivity.
Qed.

Lemma hash_closed_form_witness :
  c_siphash_hash test_seed sample_bytes (zlen sample_bytes)
  = Some (finalize_spec
            (absorbed (init_state (le_value (firstn 8 test_seed))
                                  (le_value (skipn 8 test_seed)))
                      sample_bytes)).
Proof. apply (hash_closed_form test_seed sample_bytes). reflexivity. Defined.

(** ** Streaming from any state between two calls *)

(** Every number below [2^(8 r)] is the little-endian value of [r] bytes. *)
Lemma le_value_surj (r : nat) :
  forall x : Z, 0 <= x < 2 ^ (8 * Z.of_nat r) ->
    exists l : list byte, length l = r /\ le_value l = x.
Proof.
  induction r as [| r IH]; intros x Hx.
  - exists []. cbn in *. split; [reflexivity | lia].
  - replace (8 * Z.of_nat (S r)) with (8 + 8 * Z.of_nat r) in Hx by lia.
    rewrite Z.pow_add_r in Hx by lia. change (2 ^ 8) with 256 in Hx.
    assert (Hq : 0 <= x / 256 < 2 ^ (8 * Z.of_nat r)).
    { split; [apply Z.div_pos; lia |].
      apply Z.div_lt_upper_bound; lia. }
    destruct (IH (x / 256) Hq) as (t & Ht & Hv).
    pose proof (Z.mod_pos_bound x 256 ltac:(lia)) as Hm.
    destruct (Byte.of_N (Z.to_N (x mod 256))) as [b |] eqn:E.
    + exists (b :: t). split; [cbn [length]; lia |].
      cbn [le_value]. rewrite Hv. unfold u8.
      rewrite (Byte.to_of_N _ E), Z2N.id by lia.
      pose proof (Z.div_mod x 256 ltac:(lia)). lia.
    + apply Byte.of_N_None_iff in E. lia.
Qed.

Lemma holding_self (s : CSipHash) (held : list byte) :
  le_value held = padding s -> holding s held (n_bytes s) = s.
Proof. intros E. unfold holding. rewrite E. destruct s. reflexivity. Qed.

(** A state whose [padding] holds only the pending bytes is one that holds
    a list of [n_bytes mod 8] bytes. *)
Lemma pending_ok_holding (s : CSipHash) :
  is_u64 (n_bytes s) -> pending_ok s ->
  exists (held : list byte) (c : Z),
    c mod 8 = 0 /\
    s = holding (absorb_words (n_words held) s held) (trailing held)
                (wrap64 (c + zlen held)).
Proof.
  intros Hn Hp. unfold pending_ok in Hp.
  pose proof (Z.mod_pos_bound (n_bytes s) 8 ltac:(lia)) as Hr.
  destruct (le_value_surj (Z.to_nat (n_bytes s mod 8)) (padding s))
    as (held & Hlen & Hval).
  { rewrite Z2Nat.id by lia. exact Hp. }
  exists held, (n_bytes s - zlen held).
  assert (Hz : zlen held = n_bytes s mod 8) by (unfold zlen; lia).
  split.
  - rewrite Hz. rewrite Zminus_mod_idemp_r, Z.sub_diag. reflexivity.
  - assert (Hl : (length held < 8)%nat) by lia.
    rewrite n_words_short, trailing_short by exact Hl.
    cbn [absorb_words].
    replace (n_bytes s - zlen held + zlen held) with (n_bytes s) by lia.
    rewrite wrap64_small by exact Hn.
    symmetry. apply holding_self. exact Hval.
Qed.

Lemma append_spec_stream (s0 : CSipHash) (msg data : list byte) (c : Z) :
  c mod 8 = 0 ->
  append_spec
    (holding (absorb_words (n_words msg) s0 msg) (trailing msg)
             (wrap64 (c + zlen msg)))
    data
  = holding (absorb_words (n_words (msg ++ data)) s0 (msg ++ data))
            (trailing (msg ++ data)) (wrap64 (c + zlen (msg ++ data))).
Proof.
  intros Hc.
  rewrite append_spec_holding.
  - rewrite wrap64_add_l, <- Z.add_assoc, <- zlen_app.
    assert (E : msg ++ data
                = firstn (8 * n_words msg) msg ++ (trailing msg ++ data))
      by (rewrite app_assoc, <- words_trailing; reflexivity).
    rewrite E at 2 3 4.
    set (P := firstn (8 * n_words msg) msg).
    rewrite (n_words_app (n_words msg) P), (trailing_app (n_words msg) P)
      by apply length_words.
    rewrite (absorb_words_app (n_words msg) _ _ P) by apply length_words.
    unfold P. rewrite absorb_words_firstn by lia.
    reflexivity.
  - rewrite length_trailing. apply Nat.mod_upper_bound. lia.
  - rewrite wrap64_mod8. unfold zlen. rewrite length_trailing.
    rewrite Nat2Z.inj_mod.
    rewrite <- Zplus_mod_idemp_l, Hc. reflexivity.
Qed.

Lemma holding_pending_ok (s : CSipHash) (held : list byte) (count : Z) :
  count mod 8 = zlen held -> pending_ok (holding s held count).
Proof.
  intros H. unfold pending_ok.
  rewrite padding_holding, n_bytes_holding, H.
  apply le_value_range.
Qed.

(** The invariant of [padding] is kept by every call: if [padding] holds
    nothing but the [n_bytes mod 8] pending bytes before
    [c_siphash_append], it does so after. *)
Theorem append_keeps_pending_ok (s : CSipHash) (mem : buffer) (n : Z) :
  is_u64 (n_bytes s) -> pending_ok s -> 0 <= n <= zlen mem ->
  exists s',
    c_siphash_append s mem n = Some s' /\
    is_u64 (n_bytes s') /\ pending_ok s'.
Proof.
  intros Hn Hp Hlen.
  exists (append_spec s (firstn (Z.to_nat n) mem)).
  split; [apply append_correct; exact Hlen |].
  split; [rewrite append_spec_n_bytes; apply wrap64_range |].
  destruct (pending_ok_holding s Hn Hp) as (held & c & Hc & E).
  rewrite E, append_spec_stream by exact Hc.
  apply holding_pending_ok.
  rewrite wrap64_mod8, <- Zplus_mod_idemp_l, Hc.
  unfold zlen. rewrite length_trailing, Nat2Z.inj_mod. reflexivity.
Qed.

Lemma sample_pending_ok : pending_ok sample_state.
Proof. unfold pending_ok. simpl. lia. Defined.

Lemma append_keeps_pending_ok_witness :
  exists s',
    c_siphash_append sample_state sample_bytes 9 = Some s' /\
    is_u64 (n_bytes s') /\ pending_ok s'.
Proof.
  apply (append_keeps_pending_ok sample_state sample_bytes 9).
  - unfold is_u64. simpl. lia.
  - exact sample_pending_ok.
  - unfold zlen. simpl. lia.
Defined.

(** From any state in which [padding] holds nothing but the pending bytes,
    not only from a fresh one, two calls of [c_siphash_append] on [a] and
    [b] have the effect of one call on [a ++ b]. *)
Theorem append_twice_is_append_concat (s : CSipHash) (a b : list byte) :
  is_u64 (n_bytes s) -> pending_ok s ->
  (s' <- c_siphash_append s a (zlen a) ;; c_siphash_append s' b (zlen b))
  = c_siphash_append s (a ++ b) (zlen (a ++ b)).
Proof.
  intros Hn Hp.
  destruct (pending_ok_holding s Hn Hp) as (held & c & Hc & E).
  rewrite E.
  rewrite !append_correct by (unfold zlen; lia).
  rewrite !firstn_zlen. cbn [bind].
  rewrite append_spec_stream by exact Hc.
  rewrite append_correct by (unfold zlen; lia).
  rewrite firstn_zlen.
  rewrite !append_spec_stream by exact Hc.
  rewrite app_assoc. reflexivity.
Qed.

Lemma append_twice_is_append_concat_witness :
  (s' <- c_siphash_append sample_state sample_bytes (zlen sample_bytes) ;;
   c_siphash_append s' sample_bytes (zlen sample_bytes))
  = c_siphash_append sample_state (sample_bytes ++ sample_bytes)
      (zlen (sample_bytes ++ sample_bytes)).
Proof.
  apply (append_twice_is_append_concat sample_state sample_bytes sample_bytes).
  - unfold is_u64. simpl. lia.
  - exact sample_pending_ok.
Defined.

(** ** [c_siphash_finalize] *)

Lemma padding_set_v2 (s : CSipHash) (x : Z) : padding (set_v2 s x) = padding s.
Proof. reflexivity. Qed.

Lemma n_bytes_set_v2 (s : CSipHash) (x : Z) : n_bytes (set_v2 s x) = n_bytes s.
Proof. reflexivity. Qed.

Lemma finalize_fst (s : CSipHash) :
  fst (c_siphash_finalize s)
  = Nat.iter 4 c_siphash_sipround
      (set_v2 (mix s (final_block s))
              (Z.lxor (v2 (mix s (final_block s))) 0xff)).
Proof. unfold c_siphash_finalize. rewrite shl64_low8. reflexivity. Qed.

(** From a state of 64-bit fields, [c_siphash_finalize] returns a 64-bit
    value and leaves a state of 64-bit fields, with [padding] and [n_bytes]
    as they were: only the lanes are consumed. *)
Theorem finalize_keeps_state (s : CSipHash) :
  state_ok s ->
  is_u64 (snd (c_siphash_finalize s)) /\
  state_ok (fst (c_siphash_finalize s)) /\
  padding (fst (c_siphash_finalize s)) = padding s /\
  n_bytes (fst (c_siphash_finalize s)) = n_bytes s.
Proof.
  intros Hs.
  split; [rewrite finalize_eq_spec; apply finalize_spec_u64; exact Hs |].
  rewrite finalize_fst. cbn [Nat.iter nat_rect].
  pose proof (mix_ok s (final_block s) Hs (final_block_u64 s Hs)) as H1.
  set (s1 := mix s (final_block s)) in *.
  assert (H2 : state_ok (set_v2 s1 (Z.lxor (v2 s1) 255))).
  { apply set_v2_ok; [exact H1 |].
    apply lxor_u64; [unfold state_ok in H1; tauto | unfold is_u64; lia]. }
  split; [do 4 apply sipround_ok; exact H2 |].
  do 4 rewrite sipround_padding. do 4 rewrite sipround_n_bytes.
  rewrite padding_set_v2, n_bytes_set_v2. unfold s1.
  split; [apply mix_padding | apply mix_n_bytes].
Qed.

Lemma finalize_keeps_state_witness :
  is_u64 (snd (c_siphash_finalize sample_state)) /\
  state_ok (fst (c_siphash_finalize sample_state)) /\
  padding (fst (c_siphash_finalize sample_state)) = padding sample_state /\
  n_bytes (fst (c_siphash_finalize sample_state)) = n_bytes sample_state.
Proof. apply (finalize_keeps_state sample_state). exact sample_state_ok. Defined.

Lemma init_faults_iff_short_witness :
  (c_siphash_init test_seed = None <-> (length test_seed < 16)%nat) /\
  (forall s, c_siphash_init test_seed = Some s -> state_ok s).
Proof. apply (init_faults_iff_short test_seed). Defined.
